(** * Ellis Law police-report parser: the heuristics of [app.py]

    A shallow embedding of the text heuristics of [app.py]
    ([parse_occupants], [find_charged_driver_hint], [flag_commercial],
    [flag_fatal], [parse_document]) together with the parts of Python's
    [str] and [re] they rest on, and the properties of the specification
    checked against them.

    Text is a list of characters.  A character is one of the code points
    0 to 255 (Latin-1), held in Rocq's [ascii]; whitespace, word
    characters, line boundaries and case are CPython's on all of them.
    The upper case of a character may be a code point above 255 or two
    characters, so an upper-cased text is a list of code points. *)

From Stdlib Require Import List Bool Arith ZArith Lia Ascii String Sorted.
Import ListNotations.

Set Implicit Arguments.

Local Open Scope list_scope.

(* [length] is the length of a list throughout. *)
Abbreviation length := List.length (only parsing).

(** ** Python strings *)

Module Py.

Definition str := list ascii.

(** A string literal of the source. *)
Definition lit (s : string) : str := list_ascii_of_string s.

Definition code (c : ascii) : N := N_of_ascii c.

Definition in_range (lo hi c : ascii) : bool :=
  (code lo <=? code c)%N && (code c <=? code hi)%N.

Definition among (s : string) (c : ascii) : bool :=
  existsb (Ascii.eqb c) (lit s).

Definition is_upper (c : ascii) : bool := in_range "A" "Z" c.
Definition is_lower (c : ascii) : bool := in_range "a" "z" c.
Definition is_digit (c : ascii) : bool := in_range "0" "9" c.
Definition is_alpha (c : ascii) : bool := is_upper c || is_lower c.

(** [\w]: the underscore and what [str.isalnum] takes: the ASCII letters
    and digits and, above them, the ordinal indicators (170, 186), the
    superscript digits (178, 179, 185), the micro sign (181), the
    fractions (188 to 190) and the accented letters (192 to 255 without
    the multiplication and division signs, 215 and 247). *)
Definition is_word (c : ascii) : bool :=
  is_alpha c || is_digit c || Ascii.eqb c "_" ||
  Ascii.eqb c "170" || in_range "178" "179" c || Ascii.eqb c "181" ||
  in_range "185" "186" c || in_range "188" "190" c ||
  in_range "192" "214" c || in_range "216" "246" c || in_range "248" "255" c.

(** [str.isspace] on one character, which is also [\s]: TAB, LF, VT, FF,
    CR, the four separators FS GS RS US, the space, NEL (133) and the
    no-break space (160). *)
Definition is_space (c : ascii) : bool :=
  in_range "009" "013" c || in_range "028" "031" c || Ascii.eqb c " " ||
  Ascii.eqb c "133" || Ascii.eqb c "160".

(** The line boundaries of [str.splitlines]: LF, VT, FF, CR, FS, GS, RS
    and NEL (US is whitespace but no line boundary). *)
Definition is_linebreak (c : ascii) : bool :=
  in_range "010" "013" c || in_range "028" "030" c || Ascii.eqb c "133".

(** The upper case of one character where it is one Latin-1 character:
    the micro sign (181) and y with diaeresis (255) have theirs above 255,
    and sharp s (223) has none of one character. *)
Definition upper_char (c : ascii) : option ascii :=
  if is_lower c || in_range "224" "246" c || in_range "248" "254" c
  then Some (ascii_of_N (code c - 32))
  else if Ascii.eqb c "181" || Ascii.eqb c "255" then None
  else Some c.

(** The lower case of one character. *)
Definition lower_char (c : ascii) : ascii :=
  if is_upper c || in_range "192" "214" c || in_range "216" "222" c
  then ascii_of_N (code c + 32)
  else c.

(** An upper-cased text: a list of code points. *)
Definition ustr := list N.

(** The code points of a text. *)
Definition wide (s : str) : ustr := map code s.

(** [c.upper()] for one character: sharp s gives SS, the micro sign the
    capital mu (924) and y with diaeresis its capital (376). *)
Definition upper_point (c : ascii) : ustr :=
  if is_lower c || in_range "224" "246" c || in_range "248" "254" c
  then [(code c - 32)%N]
  else if Ascii.eqb c "223" then [83%N; 83%N]
  else if Ascii.eqb c "181" then [924%N]
  else if Ascii.eqb c "255" then [376%N]
  else [code c].

(** [s.upper()] *)
Definition upper (s : str) : ustr := flat_map upper_point s.

(** [s.startswith(p)] and [sub in s] on upper-cased texts. *)
Fixpoint ustartswith (p s : ustr) : bool :=
  match p, s with
  | [], _ => true
  | _ :: _, [] => false
  | a :: p', b :: s' => N.eqb a b && ustartswith p' s'
  end.

Fixpoint ustr_in (sub s : ustr) : bool :=
  ustartswith sub s ||
  match s with
  | [] => false
  | _ :: s' => ustr_in sub s'
  end.

(** [len(s)] as a Python integer. *)
Definition len {A} (l : list A) : Z := Z.of_nat (List.length l).

(** [s.startswith(p)] *)
Fixpoint startswith (p s : str) : bool :=
  match p, s with
  | [], _ => true
  | _ :: _, [] => false
  | a :: p', b :: s' => Ascii.eqb a b && startswith p' s'
  end.

(** [sub in s] *)
Fixpoint str_in (sub s : str) : bool :=
  startswith sub s ||
  match s with
  | [] => false
  | _ :: s' => str_in sub s'
  end.

Fixpoint find_from (sub s : str) (pos : Z) : Z :=
  if startswith sub s then pos
  else match s with
       | [] => (-1)%Z
       | _ :: s' => find_from sub s' (pos + 1)%Z
       end.

(** [s.find(sub)]: the lowest index of an occurrence, or -1. *)
Definition find (s sub : str) : Z := find_from sub s 0%Z.

(** One bound of a slice, as Python normalises it: a negative index counts
    from the end, and the result is clamped to [0, len]. *)
Definition clamp (n : Z) (i : Z) : nat :=
  let i' := if (i <? 0)%Z then (i + n)%Z else i in
  Z.to_nat (Z.min n (Z.max 0 i')).

(** [s[lo:hi]], for a string or a list *)
Definition slice {A} (s : list A) (lo hi : Z) : list A :=
  let a := clamp (len s) lo in
  let b := clamp (len s) hi in
  firstn (b - a) (skipn a s).

(** [s[:hi]] *)
Definition slice_to {A} (s : list A) (hi : Z) : list A := slice s 0%Z hi.

(** [a == b] on strings *)
Fixpoint str_eqb (a b : str) : bool :=
  match a, b with
  | [], [] => true
  | x :: a', y :: b' => Ascii.eqb x y && str_eqb a' b'
  | _, _ => false
  end.

Fixpoint lstrip_by (p : ascii -> bool) (s : str) : str :=
  match s with
  | [] => []
  | c :: s' => if p c then lstrip_by p s' else s
  end.

Definition rstrip_by (p : ascii -> bool) (s : str) : str :=
  rev (lstrip_by p (rev s)).

Definition strip_by (p : ascii -> bool) (s : str) : str :=
  rstrip_by p (lstrip_by p s).

(** [s.strip()] *)
Definition strip (s : str) : str := strip_by is_space s.

(** [s.strip(chars)] *)
Definition strip_chars (chars : string) (s : str) : str := strip_by (among chars) s.

Definition flush (cur : str) : list str :=
  match cur with
  | [] => []
  | _ :: _ => [cur]
  end.

Fixpoint split_go (cur s : str) : list str :=
  match s with
  | [] => flush cur
  | c :: s' =>
      if is_space c then flush cur ++ split_go [] s'
      else split_go (cur ++ [c]) s'
  end.

(** [s.split()]: the maximal runs of non-whitespace characters. *)
Definition split (s : str) : list str := split_go [] s.

Fixpoint splitlines_go (cur s : str) : list str :=
  match s with
  | [] => flush cur
  | c :: s' =>
      if is_linebreak c then
        match s' with
        | [] => [cur]
        | c2 :: s'' =>
            if Ascii.eqb c "013" && Ascii.eqb c2 "010"
            then cur :: splitlines_go [] s''
            else cur :: splitlines_go [] s'
        end
      else splitlines_go (cur ++ [c]) s'
  end.

(** [s.splitlines()]: CR LF counts as one boundary, and a final boundary
    opens no further line. *)
Definition splitlines (s : str) : list str := splitlines_go [] s.

(** [sep.join(parts)] *)
Fixpoint join (sep : str) (parts : list str) : str :=
  match parts with
  | [] => []
  | [p] => p
  | p :: rest => p ++ sep ++ join sep rest
  end.

(** Truth value of a string: [bool(s)]. *)
Definition truthy {A} (s : list A) : bool :=
  match s with
  | [] => false
  | _ :: _ => true
  end.

End Py.

(** ** The fragment of [re] the patterns use

    Every pattern of [app.py] is a sequence of single characters, greedy
    repetitions of a character class, the anchors [^], [$] and [\b], and
    one capturing group.  The matcher backtracks as [re] does: a greedy
    repetition first takes all it can and gives characters back one at a
    time until the rest of the pattern matches. *)

Module Re.
Import Py.

Inductive item : Type :=
| Chr (p : ascii -> bool)                        (* a literal or a class *)
| Rep (p : ascii -> bool) (lo : nat) (hi : option nat)   (* p{lo,hi}, greedy *)
| WordB                                          (* \b *)
| Bos                                            (* ^ *)
| Eos                                            (* $ *)
| GOpen                                          (* ( *)
| GClose.                                        (* ) *)

Record regex : Type := { items : list item; ignorecase : bool }.

Definition Star (p : ascii -> bool) : item := Rep p 0 None.
Definition Plus (p : ascii -> bool) : item := Rep p 1 None.
Definition Opt (p : ascii -> bool) : item := Rep p 0 (Some 1).
Definition AtLeast (n : nat) (p : ascii -> bool) : item := Rep p n None.
Definition Between (lo hi : nat) (p : ascii -> bool) : item := Rep p lo (Some hi).

(** The literal text [s], character by character. *)
Definition chars (s : string) : list item :=
  map (fun c => Chr (Ascii.eqb c)) (lit s).

(** Span of group 1 (absolute positions), once the group has been opened. *)
Definition groups := option (nat * nat).

(** A match seen from its start: where it ends, and group 1. *)
Definition mres := (nat * groups)%type.

(** Under IGNORECASE a character matches when it, its upper case or its
    lower case does; an upper case above 255 is in no class of Latin-1
    characters. *)
Definition cmatch (ic : bool) (p : ascii -> bool) (c : ascii) : bool :=
  if ic then
    p c ||
    match upper_char c with
    | Some u => p u
    | None => false
    end ||
    p (lower_char c)
  else p c.

Definition word_before (prev : option ascii) : bool :=
  match prev with
  | Some c => is_word c
  | None => false
  end.

Definition word_after (s : str) : bool :=
  match s with
  | c :: _ => is_word c
  | [] => false
  end.

(** [\b]: exactly one side is a word character. *)
Definition at_boundary (prev : option ascii) (s : str) : bool :=
  xorb (word_before prev) (word_after s).

(** [^] without MULTILINE: the start of the string. *)
Definition at_start (prev : option ascii) : bool :=
  match prev with
  | None => true
  | Some _ => false
  end.

(** [$] without MULTILINE: the end, or just before a final newline. *)
Definition at_end (s : str) : bool :=
  match s with
  | [] => true
  | [c] => Ascii.eqb c "010"
  | _ => false
  end.

Definition room (hi : option nat) : bool :=
  match hi with
  | Some 0 => false
  | _ => true
  end.

Definition close_group (g : groups) (pos : nat) : groups :=
  match g with
  | Some (a, _) => Some (a, pos)
  | None => None
  end.

(** Greedy repetition of a class with continuation [k]: take one more
    character when allowed, and stop here ([lo] reached) only when the
    longer attempts have failed. *)
Fixpoint rep_greedy (p : ascii -> bool)
    (k : option ascii -> str -> nat -> option mres)
    (lo : nat) (hi : option nat)
    (prev : option ascii) (s : str) (pos : nat) {struct s} : option mres :=
  let stop := match lo with 0 => k prev s pos | S _ => None end in
  match s with
  | [] => stop
  | c :: s' =>
      if p c && room hi then
        match rep_greedy p k (pred lo) (option_map pred hi) (Some c) s' (S pos) with
        | Some r => Some r
        | None => stop
        end
      else stop
  end.

(** Match [its] at position [pos]: [prev] is the character before it and
    [s] the text from it on. *)
Fixpoint match_items (ic : bool) (its : list item) (g : groups)
    (prev : option ascii) (s : str) (pos : nat) {struct its} : option mres :=
  match its with
  | [] => Some (pos, g)
  | Chr p :: r =>
      match s with
      | c :: s' => if cmatch ic p c then match_items ic r g (Some c) s' (S pos) else None
      | [] => None
      end
  | Rep p lo hi :: r => rep_greedy (cmatch ic p) (match_items ic r g) lo hi prev s pos
  | WordB :: r => if at_boundary prev s then match_items ic r g prev s pos else None
  | Bos :: r => if at_start prev then match_items ic r g prev s pos else None
  | Eos :: r => if at_end s then match_items ic r g prev s pos else None
  | GOpen :: r => match_items ic r (Some (pos, pos)) prev s pos
  | GClose :: r => match_items ic r (close_group g pos) prev s pos
  end.

Definition match_at (re : regex) (prev : option ascii) (s : str) (pos : nat) : option mres :=
  match_items (ignorecase re) (items re) None prev s pos.

(** A match object: the string searched, the span and group 1. *)
Record rmatch : Type := {
  m_string : str;
  m_start : nat;
  m_end : nat;
  m_span1 : groups
}.

Definition mk_match (text : str) (start : nat) (r : mres) : rmatch :=
  {| m_string := text; m_start := start; m_end := fst r; m_span1 := snd r |}.

(** [m.start()] *)
Definition start (m : rmatch) : Z := Z.of_nat (m_start m).

(** [m.group(1)] *)
Definition group1 (m : rmatch) : str :=
  match m_span1 m with
  | Some (a, b) => slice (m_string m) (Z.of_nat a) (Z.of_nat b)
  | None => []
  end.

Fixpoint search_from (re : regex) (text : str)
    (prev : option ascii) (s : str) (pos : nat) : option rmatch :=
  match match_at re prev s pos with
  | Some r => Some (mk_match text pos r)
  | None =>
      match s with
      | [] => None
      | c :: s' => search_from re text (Some c) s' (S pos)
      end
  end.

(** [re.search(pattern, text)]: the match at the leftmost position that has one. *)
Definition search (re : regex) (text : str) : option rmatch :=
  search_from re text None text 0.

(** [re.match(pattern, text)]: a match at position 0 only. *)
Definition rmatch_at0 (re : regex) (text : str) : option rmatch :=
  option_map (mk_match text 0) (match_at re None text 0).

(** Left to right over the non-overlapping matches: [skip] characters of
    the last match are still to be passed.  No pattern of [app.py] matches
    the empty string; after an empty match the scan moves on by one
    character. *)
Fixpoint findall_from (re : regex) (text : str)
    (prev : option ascii) (s : str) (pos skip : nat) : list str :=
  match skip with
  | S k =>
      match s with
      | [] => []
      | c :: s' => findall_from re text (Some c) s' (S pos) k
      end
  | 0 =>
      match match_at re prev s pos with
      | Some r =>
          group1 (mk_match text pos r) ::
          match s with
          | [] => []
          | c :: s' => findall_from re text (Some c) s' (S pos) (fst r - pos - 1)
          end
      | None =>
          match s with
          | [] => []
          | c :: s' => findall_from re text (Some c) s' (S pos) 0
          end
      end
  end.

(** [re.findall(pattern, text)] for a pattern with one group: the list of
    what the group captured. *)
Definition findall (re : regex) (text : str) : list str :=
  findall_from re text None text 0 0.

Fixpoint sub_from (re : regex) (repl : str)
    (prev : option ascii) (s : str) (pos skip : nat) : str :=
  match s with
  | [] =>
      match skip, match_at re prev s pos with
      | 0, Some _ => repl
      | _, _ => []
      end
  | c :: s' =>
      match skip with
      | S k => sub_from re repl (Some c) s' (S pos) k
      | 0 =>
          match match_at re prev s pos with
          | Some r =>
              if fst r =? pos
              then repl ++ c :: sub_from re repl (Some c) s' (S pos) 0
              else repl ++ sub_from re repl (Some c) s' (S pos) (fst r - pos - 1)
          | None => c :: sub_from re repl (Some c) s' (S pos) 0
          end
      end
  end.

(** [re.sub(pattern, repl, text)] with a literal replacement. *)
Definition sub (re : regex) (repl : str) (text : str) : str :=
  sub_from re repl None text 0 0.

(** Truth value of [re.search]'s or [re.match]'s result. *)
Definition found (m : option rmatch) : bool :=
  match m with
  | Some _ => true
  | None => false
  end.

End Re.

(** ** The heuristics of [app.py] *)

Module App.
Import Py Re.

Definition LF : ascii := "010".

(** [[A-Z0-9\-]] *)
Definition cls_case (c : ascii) : bool :=
  in_range "A" "Z" c || in_range "0" "9" c || among "-" c.

(** [[A-Z0-9 \-./&]] *)
Definition cls_dept (c : ascii) : bool :=
  in_range "A" "Z" c || in_range "0" "9" c || among " -./&" c.

(** [[0-9\- ]] *)
Definition cls_numeric (c : ascii) : bool :=
  in_range "0" "9" c || among "- " c.

(** [[A-Za-z]] *)
Definition cls_letter (c : ascii) : bool :=
  in_range "A" "Z" c || in_range "a" "z" c.

(** [[A-Z \-']] *)
Definition cls_caps (c : ascii) : bool :=
  in_range "A" "Z" c || among " -'" c.

(** [re.compile(r"\b1\s*Case\s*Number\s*\n?([A-Z0-9\-]+)", re.IGNORECASE)] *)
Definition CASE_RE : regex :=
  {| items := [WordB] ++ chars "1" ++ [Star is_space] ++ chars "Case" ++
              [Star is_space] ++ chars "Number" ++ [Star is_space; Opt (Ascii.eqb LF)] ++
              [GOpen; Plus cls_case; GClose];
     ignorecase := true |}.

(** [re.compile(r"2\s*Police Dept of\s*\n?([A-Z0-9 \-./&]+)", re.IGNORECASE)] *)
Definition DEPT_RE : regex :=
  {| items := chars "2" ++ [Star is_space] ++ chars "Police Dept of" ++
              [Star is_space; Opt (Ascii.eqb LF)] ++
              [GOpen; Plus cls_dept; GClose];
     ignorecase := true |}.

(** [re.compile(r"4\s*Date of Crash\s*\n?(\d{2}/\d{2}/\d{2})", re.IGNORECASE)] *)
Definition DATE_RE : regex :=
  {| items := chars "4" ++ [Star is_space] ++ chars "Date of Crash" ++
              [Star is_space; Opt (Ascii.eqb LF)] ++
              [GOpen; Between 2 2 is_digit] ++ chars "/" ++ [Between 2 2 is_digit] ++
              chars "/" ++ [Between 2 2 is_digit; GClose];
     ignorecase := true |}.

(** [r"^[0-9\- ]+$"] *)
Definition NUMERIC_LINE_RE : regex :=
  {| items := [Bos; Plus cls_numeric; Eos]; ignorecase := false |}.

(** [r"[A-Za-z]{2,}\s+[A-Za-z]"] *)
Definition TWO_WORDS_RE : regex :=
  {| items := [AtLeast 2 cls_letter; Plus is_space; Chr cls_letter]; ignorecase := false |}.

(** [r"\s*-\s*"] *)
Definition HYPHEN_RE : regex :=
  {| items := [Star is_space] ++ chars "-" ++ [Star is_space]; ignorecase := false |}.

(** [r"\s{2,}"] *)
Definition SPACES_RE : regex :=
  {| items := [AtLeast 2 is_space]; ignorecase := false |}.

(** [r"\b\d{2,}\b"] *)
Definition NUMBER_RE : regex :=
  {| items := [WordB; AtLeast 2 is_digit; WordB]; ignorecase := false |}.

(** [r"\n([A-Z][A-Z \-']{4,60})\n"] *)
Definition CAPS_RE : regex :=
  {| items := [Chr (Ascii.eqb LF); GOpen; Chr (in_range "A" "Z"); Between 4 60 cls_caps;
               GClose; Chr (Ascii.eqb LF)];
     ignorecase := false |}.

(** [r"\b8\s*Total\s*Killed\s*\n?([1-9])"] *)
Definition FATAL_RE : regex :=
  {| items := [WordB] ++ chars "8" ++ [Star is_space] ++ chars "Total" ++
              [Star is_space] ++ chars "Killed" ++ [Star is_space; Opt (Ascii.eqb LF)] ++
              [GOpen; Chr (in_range "1" "9"); GClose];
     ignorecase := false |}.

(** [{"name": name_only}] *)
Record occupant : Type := { name : str }.

(** [2 <= len(s.split()) <= 5] *)
Definition word_count_ok (s : str) : bool :=
  (2 <=? len (split s))%Z && (len (split s) <=? 5)%Z.

(** The cleaned line of an occupant candidate. *)
Definition clean_line (l : str) : str :=
  let clean := sub HYPHEN_RE (lit " ") l in
  strip_chars " -" (sub SPACES_RE (lit " ") clean).

(** The candidate name: the cleaned line up to its first number of two or
    more digits. *)
Definition name_only (clean : str) : str :=
  match search NUMBER_RE clean with
  | None => clean
  | Some m => strip (slice_to clean (start m))
  end.

(** One turn of the loop over the lines of the occupants block. *)
Definition occupants_step (results : list occupant) (l : str) : list occupant :=
  if str_in (lit "Names & Addresses") l || str_in (lit "If Deceased") l then results
  else if found (rmatch_at0 NUMERIC_LINE_RE l) then results
  else if found (search TWO_WORDS_RE l) then
    let clean := clean_line l in
    let name_only := name_only clean in
    if word_count_ok name_only
    then results ++ [ {| name := name_only |} ]
    else results
  else results.

(** One turn of the deduplication loop; [seen] is the set of names met so
    far, used through [in] and [add] only. *)
Definition dedup_step (st : list occupant * list str) (r : occupant)
    : list occupant * list str :=
  let (dedup, seen) := st in
  if existsb (str_eqb (name r)) seen then st
  else (dedup ++ [r], name r :: seen).

Definition occupant_lines (text : str) (anchor : Z) : list str :=
  let block := slice text anchor (anchor + 8000) in
  map strip (filter (fun l => truthy (strip l)) (splitlines block)).

Definition occupant_results (text : str) (anchor : Z) : list occupant :=
  fold_left occupants_step (occupant_lines text anchor) [].

Definition parse_occupants (text : str) : list occupant :=
  let anchor := find text (lit "Names & Addresses of Occupants") in
  if (anchor =? -1)%Z then []
  else
    let results := occupant_results text anchor in
    let (dedup, _) := fold_left dedup_step results ([], []) in
    slice_to dedup 30.

(** The loop over the capitalised lines: the first that has two to five
    words once its whitespace is normalised. *)
Fixpoint first_hint (caps : list str) : option str :=
  match caps with
  | [] => None
  | cand :: rest =>
      let cand := join (lit " ") (split cand) in
      if word_count_ok cand then Some cand else first_hint rest
  end.

Definition charge_snippet (text : str) : str :=
  let idx := find text (lit "136 Charge") in
  slice text (Z.max 0 (idx - 600)) (idx + 1500).

Definition find_charged_driver_hint (text : str) : option str :=
  if negb (str_in (lit "136 Charge") text) then None
  else first_hint (findall CAPS_RE (charge_snippet text)).

Definition commercial_keys : list str :=
  map lit ["USDOT"; "TRUCK"; "CARRIER"; "GVWR"; "PENSKE"; "FREIGHT"; "MC/MX";
           "WEIGHT >= 26,001"]%string.

Definition flag_commercial (text : str) : bool :=
  let T := upper text in
  existsb (fun k => ustr_in (wide k) T) commercial_keys.

(** [a and b] returns [a] when it is false and [b] otherwise: here [False],
    or what [re.search] returned. *)
Definition flag_fatal (text : str) : bool + option rmatch :=
  if str_in (lit "Total Killed") text
  then inr (search FATAL_RE text)
  else inl false.

(** [bool(v)] for what [flag_fatal] returns. *)
Definition py_bool (v : bool + option rmatch) : bool :=
  match v with
  | inl b => b
  | inr m => found m
  end.

(** [h or s] with [s] the empty string *)
Definition or_empty (h : option str) : str :=
  match h with
  | Some s => if truthy s then s else []
  | None => []
  end.

(** The dictionary of one output row, in the order of its keys:
    "Case Number", "Police Dept", "Date of Crash", "Name",
    "NotAtFault (heuristic)", "CommercialVehicleFlag", "FatalFlag". *)
Record row : Type := {
  CaseNumber : str;
  PoliceDept : str;
  DateOfCrash : str;
  Name : str;
  NotAtFault : str;
  CommercialVehicleFlag : str;
  FatalFlag : str
}.

Definition yes_no (b : bool) : str := if b then lit "Yes" else lit "No".

(** [m.group(1)] when there is a match, and the empty string otherwise *)
Definition group1_or_empty (m : option rmatch) : str :=
  match m with
  | Some m => group1 m
  | None => []
  end.

Definition not_at_fault (charged_hint : ustr) (name : str) : str :=
  if truthy charged_hint && ustr_in charged_hint (upper name)
  then lit "No" else lit "Yes".

Definition parse_document (text : str) : list row :=
  let case_no := search CASE_RE text in
  let dept := search DEPT_RE text in
  let date := search DATE_RE text in
  let occupants := parse_occupants text in
  let charged_hint := upper (or_empty (find_charged_driver_hint text)) in
  let commercial := flag_commercial text in
  let fatal := py_bool (flag_fatal text) in
  let rows :=
    fold_left
      (fun rows o =>
         let name := name o in
         let naf := not_at_fault charged_hint name in
         rows ++ [ {| CaseNumber := group1_or_empty case_no;
                      PoliceDept := match dept with Some m => strip (group1 m) | None => [] end;
                      DateOfCrash := group1_or_empty date;
                      Name := name;
                      NotAtFault := naf;
                      CommercialVehicleFlag := yes_no commercial;
                      FatalFlag := yes_no fatal |} ])
      occupants [] in
  match rows with
  | [] =>
      rows ++ [ {| CaseNumber := group1_or_empty case_no;
                   PoliceDept := match dept with Some m => strip (group1 m) | None => [] end;
                   DateOfCrash := group1_or_empty date;
                   Name := lit "(no occupants parsed)";
                   NotAtFault := [];
                   CommercialVehicleFlag := yes_no commercial;
                   FatalFlag := yes_no fatal |} ]
  | _ :: _ => rows
  end.

End App.

(** ** The notions the specification is stated in *)

Module Spec.
Import Py Re App.

(** [sub] occurs in [s]. *)
Definition Substr {A} (sub s : list A) : Prop :=
  exists pre post, s = pre ++ sub ++ post.

(** [sub] occurs in [s] at index [i]. *)
Definition OccursAt (sub s : str) (i : nat) : Prop :=
  exists pre post, s = pre ++ sub ++ post /\ length pre = i.

(** [sub] occurs in [s] up to the case of letters. *)
Definition SubstrCI (sub s : str) : Prop :=
  exists pre mid post, s = pre ++ mid ++ post /\ upper mid = upper sub.

(** The character just before the end of [run], or [prev] when [run] is empty. *)
Definition last_char (prev : option ascii) (run : str) : option ascii :=
  fold_left (fun _ c => Some c) run prev.

Definition within (n : nat) (hi : option nat) : Prop :=
  match hi with
  | Some h => n <= h
  | None => True
  end.

(** What a pattern matches, without the order in which [re] tries the
    alternatives: each repetition takes some run of its class within its
    bounds. *)
Inductive Matches (ic : bool) :
    list item -> groups -> option ascii -> str -> nat -> mres -> Prop :=
| M_nil g prev s pos :
    Matches ic [] g prev s pos (pos, g)
| M_chr p r g prev c s pos res :
    cmatch ic p c = true ->
    Matches ic r g (Some c) s (S pos) res ->
    Matches ic (Chr p :: r) g prev (c :: s) pos res
| M_rep p lo hi r g prev run s pos res :
    forallb (cmatch ic p) run = true ->
    lo <= length run ->
    within (length run) hi ->
    Matches ic r g (last_char prev run) s (pos + length run) res ->
    Matches ic (Rep p lo hi :: r) g prev (run ++ s) pos res
| M_wordb r g prev s pos res :
    at_boundary prev s = true ->
    Matches ic r g prev s pos res ->
    Matches ic (WordB :: r) g prev s pos res
| M_bos r g prev s pos res :
    at_start prev = true ->
    Matches ic r g prev s pos res ->
    Matches ic (Bos :: r) g prev s pos res
| M_eos r g prev s pos res :
    at_end s = true ->
    Matches ic r g prev s pos res ->
    Matches ic (Eos :: r) g prev s pos res
| M_gopen r g prev s pos res :
    Matches ic r (Some (pos, pos)) prev s pos res ->
    Matches ic (GOpen :: r) g prev s pos res
| M_gclose r g prev s pos res :
    Matches ic r (close_group g pos) prev s pos res ->
    Matches ic (GClose :: r) g prev s pos res.

(** The pattern matches [text] from index [j] on, with result [res]. *)
Definition MatchAt (re : regex) (text : str) (j : nat) (res : mres) : Prop :=
  j <= length text /\
  Matches (ignorecase re) (items re) None
          (last_char None (firstn j text)) (skipn j text) j res.

(** The pattern matches somewhere in [text]. *)
Definition HasMatch (re : regex) (text : str) : Prop :=
  exists j res, MatchAt re text j res.

(** A number of the line: two or more digits, with no word character on
    either side.  [pre] is the text before it and [post] the text after. *)
Definition NumberAt (pre run post : str) : Prop :=
  2 <= length run /\
  forallb is_digit run = true /\
  word_before (last_char None pre) = false /\
  word_after post = false.

Definition HasNumber (s : str) : Prop :=
  exists pre run post, s = pre ++ run ++ post /\ NumberAt pre run post.

(** The number at [pre] is the first of the line. *)
Definition FirstNumber (pre run post : str) : Prop :=
  NumberAt pre run post /\
  forall pre' run' post',
    pre ++ run ++ post = pre' ++ run' ++ post' ->
    NumberAt pre' run' post' -> length pre <= length pre'.

(** The fatality count of the form: the field number 8 not glued to a
    word before it, the label with any whitespace between its parts, and
    a digit from 1 to 9. *)
Definition FatalCount (text : str) : Prop :=
  exists pre ws1 ws2 ws3 nl d post,
    text = pre ++ lit "8" ++ ws1 ++ lit "Total" ++ ws2 ++ lit "Killed" ++
           ws3 ++ nl ++ d :: post /\
    word_before (last_char None pre) = false /\
    forallb is_space ws1 = true /\
    forallb is_space ws2 = true /\
    forallb is_space ws3 = true /\
    (nl = [] \/ nl = [LF]) /\
    in_range "1" "9" d = true.

(** A capitalised line as [CAPS_RE] takes it: an uppercase letter, then 4
    to 60 uppercase letters, spaces, hyphens or apostrophes. *)
Definition CapsLine (l : str) : Prop :=
  exists c tl,
    l = c :: tl /\ in_range "A" "Z" c = true /\
    forallb cls_caps tl = true /\ 4 <= length tl <= 60.

(** A capitalised line between two newlines, the first at index [j] of [w]. *)
Definition CapsAt (w : str) (j : nat) (l : str) : Prop :=
  exists pre post, w = pre ++ LF :: l ++ LF :: post /\ length pre = j /\ CapsLine l.

(** The candidates of a window, left to right: the leftmost capitalised
    line between newlines, then the candidates of what follows its closing
    newline. *)
Inductive CapsScan : str -> list str -> Prop :=
| scan_done w :
    (forall j l, ~ CapsAt w j l) ->
    CapsScan w []
| scan_hit pre l post cands :
    CapsLine l ->
    (forall j l', CapsAt (pre ++ LF :: l ++ LF :: post) j l' -> length pre <= j) ->
    CapsScan post cands ->
    CapsScan (pre ++ LF :: l ++ LF :: post) (l :: cands).

(** Whitespace normalisation of a candidate. *)
Definition normalize (cand : str) : str := join (lit " ") (split cand).

(** [h] is the first candidate, normalised, with two to five words. *)
Definition FirstQualifying (cands : list str) (h : option str) : Prop :=
  (h = None /\ Forall (fun c => word_count_ok (normalize c) = false) cands) \/
  (exists before c after,
      cands = before ++ c :: after /\
      Forall (fun c => word_count_ok (normalize c) = false) before /\
      word_count_ok (normalize c) = true /\
      h = Some (normalize c)).

(** The window around the first "136 Charge", which starts at index [idx]. *)
Definition window (text : str) (idx : nat) : str :=
  skipn (idx - 600) (firstn (idx + 1500) text).

(** Index of the first occupant named [n] in [l] ([length l] when none is). *)
Fixpoint first_index (n : str) (l : list occupant) : nat :=
  match l with
  | [] => 0
  | o :: r => if str_eqb (name o) n then 0 else S (first_index n r)
  end.

(** [sub] occurs in [s] without regard to case: it does once both are
    upper-cased (on Latin-1 text, as once both are case-folded). *)
Definition SubstrCaseless (sub s : str) : Prop :=
  Substr (upper sub) (upper s).

(** Every S of [kw] is followed by a character that is not an S: no
    occurrence of [kw] in an upper-cased text can take one of the two S
    that a sharp s gives. *)
Fixpoint s_followed (kw : ustr) : bool :=
  match kw with
  | [] => true
  | a :: r =>
      negb (N.eqb a 83 && match r with
                          | [] => true
                          | b :: _ => N.eqb b 83
                          end)
      && s_followed r
  end.

(** The not-at-fault label in the words of the specification. *)
Definition naf_label (hint : option str) (occupant_name : str) : str -> Prop :=
  fun label =>
    (exists h, hint = Some h /\ SubstrCaseless h occupant_name /\ label = lit "No") \/
    ((forall h, hint = Some h -> ~ SubstrCaseless h occupant_name) /\
     label = lit "Yes").

(** The placeholder row of a document without occupants. *)
Definition placeholder (case_no dept date commercial fatal : str) : row :=
  {| CaseNumber := case_no; PoliceDept := dept; DateOfCrash := date;
     Name := lit "(no occupants parsed)"; NotAtFault := [];
     CommercialVehicleFlag := commercial; FatalFlag := fatal |}.

(** The charged-driver hint read off the words of the specification:
    every full line of the window (between two newlines) of 5 to 60
    uppercase letters, spaces, hyphens and apostrophes is a candidate. *)
Fixpoint lines_on (cur s : str) : list str :=
  match s with
  | [] => [cur]
  | c :: s' => if Ascii.eqb c LF then cur :: lines_on [] s' else lines_on (cur ++ [c]) s'
  end.

Definition full_lines (w : str) : list str := removelast (tl (lines_on [] w)).

Definition worded_caps_line (l : str) : bool :=
  (5 <=? length l) && (length l <=? 60) && forallb cls_caps l.

Definition worded_hint (text : str) : option str :=
  if str_in (lit "136 Charge") text then
    hd_error (filter word_count_ok
                (map normalize (filter worded_caps_line (full_lines (charge_snippet text)))))
  else None.

(** The document of the scenario: the three labelled fields, then the
    occupants block with one line. *)
Definition scenario_text : str :=
  lit "1 Case Number" ++ [LF] ++ lit "ABC123" ++ [LF] ++
  lit "2 Police Dept of TEST CITY PD" ++ [LF] ++
  lit "4 Date of Crash 01/02/23" ++ [LF] ++
  lit "Names & Addresses of Occupants" ++ [LF] ++
  lit "JOHN SMITH 123 MAIN ST" ++ [LF].

(** Windows on which the hint is compared with its wording. *)
Definition adjacent_lines_text : str :=
  lit "136 Charge" ++ [LF] ++ lit "SPEEDING" ++ [LF] ++ lit "JOHN SMITH" ++ [LF].

Definition long_line : str := lit "JOHN " ++ repeat "A"%char 56.

Definition long_line_text : str :=
  lit "136 Charge" ++ [LF] ++ long_line ++ [LF].

Definition hyphen_line_text : str :=
  lit "136 Charge" ++ [LF] ++ lit "-JOHN SMITH" ++ [LF].

Definition separate_lines_text : str :=
  lit "136 Charge" ++ [LF] ++ lit "SPEEDING" ++ [LF] ++ lit "on route 1" ++ [LF] ++
  lit "JOHN  SMITH" ++ [LF].

(** A document with two occupants and a charged driver. *)
Definition charged_text : str :=
  lit "Names & Addresses of Occupants" ++ [LF] ++
  lit "JOHN SMITH 123 MAIN ST" ++ [LF] ++
  lit "JANE DOE 45 OAK AVE" ++ [LF] ++
  lit "136 Charge" ++ [LF] ++ [LF] ++
  lit "JOHN SMITH" ++ [LF] ++ [LF] ++
  lit "39:4-97" ++ [LF].

(** An occupants block with a numeric line, hyphens, a repeated name, a
    one-letter word and a number glued to letters. *)
Definition block_text : str :=
  lit "Names & Addresses of Occupants" ++ [LF] ++
  lit "JOHN SMITH 123 MAIN ST" ++ [LF] ++
  lit "12 - 34" ++ [LF] ++
  lit "MARY - ANN   LEE -" ++ [LF] ++
  lit "JOHN SMITH 44" ++ [LF] ++
  lit "A B" ++ [LF] ++
  lit "If Deceased JOHN X" ++ [LF] ++
  lit "PAT O'NEIL 12A34 X" ++ [LF].

(** A document with nothing the parser looks for. *)
Definition plain_text : str := lit "Report not available.".

(** The anchor of the occupants block. *)
Definition anchor_text : str := lit "Names & Addresses of Occupants".

(** What holds of the deduplication loop after the occupants [done] of
    [results]: [dedup] holds one occupant per name met, in the order in
    which the names were first met. *)
Definition dedup_inv (results done : list occupant)
    (st : list occupant * list str) : Prop :=
  let (dedup, seen) := st in
  (forall n, In n seen <-> In n (map name dedup)) /\
  NoDup (map name dedup) /\
  (forall o, In o dedup -> In o done) /\
  (forall o, In o done -> In (name o) seen) /\
  StronglySorted
    (fun a b => first_index (name a) results < first_index (name b) results) dedup.

End Spec.

Import Py Re App Spec.

(** ** Text extraction and the batch of uploaded files *)

Module Pdf.

(** What [pdfplumber] did with a file before control left the first
    [try]: the result of [extract_text] for each page that was read, in
    page order ([None] where it returned [None]), and whether anything was
    raised (on opening, on a page, or on closing). *)
Record plumbed : Type := { pages_read : list (option str); raised : bool }.

Section Extraction.

(** The uploaded bytes, and the two libraries: [pdfplumber] as above, and
    PyMuPDF, which either yields the text of every page or raises
    ([None]; also when the module could not be imported). *)
Variable bytes : Type.
Variable pdfplumber : bytes -> plumbed.
Variable fitz : bytes -> option (list str).

(** The second [try]: the pages of PyMuPDF are appended to the chunks
    collected so far. *)
Definition fallback_text (text_chunks : list str) (file_bytes : bytes) : str :=
  match fitz file_bytes with
  | Some pages => join [LF] (text_chunks ++ pages)
  | None => []
  end.

Definition read_pdf_text (file_bytes : bytes) : str :=
  let run := pdfplumber file_bytes in
  let text_chunks := map or_empty (pages_read run) in
  if raised run then fallback_text text_chunks file_bytes
  else
    let txt := join [LF] text_chunks in
    if truthy (strip txt) then txt
    else fallback_text text_chunks file_bytes.

(** The loop over the uploaded files: [all_rows.extend(parse_document(text))]. *)
Definition collect_rows (files : list bytes) : list row :=
  fold_left (fun all_rows f => all_rows ++ parse_document (read_pdf_text f)) files [].

End Extraction.

(** [(df[col] == "Yes").sum()] *)
Definition count_yes (col : row -> str) (df : list row) : nat :=
  length (filter (fun r => str_eqb (col r) (lit "Yes")) df).

End Pdf.

(** ** Further notions *)

Module Props.

(** The occupants block: up to 8000 characters from index [i] on. *)
Definition block_size : nat := Z.to_nat 8000.

Definition occupants_block (text : str) (i : nat) : str :=
  skipn i (firstn (i + block_size) text).


(** Two or more letters, whitespace, and a letter. *)
Definition TwoWords (l : str) : Prop :=
  exists pre run ws c post,
    l = pre ++ run ++ ws ++ c :: post /\
    2 <= length run /\ forallb cls_letter run = true /\
    1 <= length ws /\ forallb is_space ws = true /\
    cls_letter c = true.


(** A row with every field empty. *)
Definition empty_row : row :=
  {| CaseNumber := []; PoliceDept := []; DateOfCrash := []; Name := [];
     NotAtFault := []; CommercialVehicleFlag := []; FatalFlag := [] |}.

(** A blank text. *)
Definition blank_text : str := [" "%char; LF; " "%char].

(** A document with its three fields, a fatality count, a commercial
    keyword and two occupants. *)
Definition full_text : str :=
  lit "1 Case Number" ++ [LF] ++ lit "ABC123" ++ [LF] ++
  lit "2 Police Dept of TEST CITY PD" ++ [LF] ++
  lit "4 Date of Crash 01/02/23" ++ [LF] ++
  lit "8 Total Killed 1" ++ [LF] ++
  lit "USDOT 1234567" ++ [LF] ++
  lit "Names & Addresses of Occupants" ++ [LF] ++
  lit "JOHN SMITH 123 MAIN ST" ++ [LF] ++
  lit "JANE DOE 45 OAK AVE" ++ [LF].

(** A document longer than the window of the hint: a capitalised line
    711 characters before "136 Charge", and 2000 characters after the
    driver's line. *)
Definition long_text : str :=
  [LF] ++ lit "JANE DOE" ++ [LF] ++ repeat "x"%char 700 ++ [LF] ++
  lit "136 Charge" ++ [LF] ++ [LF] ++ lit "JOHN SMITH" ++ [LF] ++
  repeat "y"%char 2000.

(** Characters above 127: the no-break space, e with acute accent, and
    sharp s. *)
Definition NBSP : ascii := "160".
Definition E_ACUTE : ascii := "233".
Definition SHARP_S : ascii := "223".

Definition nbsp_fatal_text : str := lit "8 Total Killed" ++ [NBSP] ++ lit "2".

Definition accent_fatal_text : str := [E_ACUTE] ++ lit "8 Total Killed 2".

Definition nbsp_occupant_text : str :=
  lit "Names & Addresses of Occupants" ++ [LF] ++
  lit "JOHN" ++ [NBSP] ++ lit "SMITH 123 MAIN ST" ++ [LF].

Definition accent_occupant_text : str :=
  lit "Names & Addresses of Occupants" ++ [LF] ++
  lit "JOHN SMITH " ++ [E_ACUTE] ++ lit "12 99 ELM" ++ [LF].

Definition nbsp_case_text : str := lit "1" ++ [NBSP] ++ lit "Case Number X1".

Definition sharp_s_text : str :=
  lit "Names & Addresses of Occupants" ++ [LF] ++
  lit "ANNA GRO" ++ [SHARP_S] ++ lit " 12 ELM ST" ++ [LF] ++
  lit "136 Charge" ++ [LF] ++ [LF] ++ lit "ANNA GROSS" ++ [LF] ++ [LF].

(** A document of two pages for the extraction, as bytes that are their
    own text. *)
Definition sample_plumber (file_bytes : list str) : Pdf.plumbed :=
  {| Pdf.pages_read := map Some file_bytes; Pdf.raised := false |}.

Definition sample_fitz (file_bytes : list str) : option (list str) :=
  Some file_bytes.

End Props.

Import Pdf Props.

(** ** Characters and strings *)

Section Strings.

Lemma eqb_true (a b : ascii) : Ascii.eqb a b = true <-> a = b.
Proof. apply Ascii.eqb_eq. Qed.

Lemma space_not_word (c : ascii) : is_space c = true -> is_word c = false.
Proof.
  destruct c as [[] [] [] [] [] [] [] []]; vm_compute; congruence.
Qed.

Lemma digit_is_word (c : ascii) : is_digit c = true -> is_word c = true.
Proof.
  destruct c as [[] [] [] [] [] [] [] []]; vm_compute; congruence.
Qed.

Lemma str_eqb_eq (a b : str) : str_eqb a b = true <-> a = b.
Proof.
  revert b; induction a as [|x a IH]; intros [|y b]; simpl;
    try (split; congruence).
  rewrite andb_true_iff, eqb_true, IH. split.
  - intros [-> ->]; reflexivity.
  - intros E; injection E; auto.
Qed.

Lemma str_eqb_refl (a : str) : str_eqb a a = true.
Proof. apply str_eqb_eq; reflexivity. Qed.

Lemma str_eqb_neq (a b : str) : str_eqb a b = false <-> a <> b.
Proof.
  rewrite <- str_eqb_eq. destruct (str_eqb a b); split; congruence.
Qed.

Lemma startswith_iff (p s : str) :
  startswith p s = true <-> exists post, s = p ++ post.
Proof.
  revert s; induction p as [|a p IH]; intros s; simpl.
  - split; eauto.
  - destruct s as [|b s].
    + split; [congruence | intros [post E]; discriminate].
    + rewrite andb_true_iff, eqb_true, IH. split.
      * intros [-> [post ->]]. eauto.
      * intros [post E]. injection E as -> ->. eauto.
Qed.

Lemma str_in_iff (sub s : str) : str_in sub s = true <-> Substr sub s.
Proof.
  unfold Substr. induction s as [|c s IH]; simpl.
  - rewrite orb_false_r, startswith_iff. split.
    + intros [post E]. exists [], post. exact E.
    + intros [pre [post E]]. destruct pre; [eauto|discriminate].
  - rewrite orb_true_iff, startswith_iff, IH. split.
    + intros [[post E] | [pre [post E]]].
      * exists [], post. exact E.
      * exists (c :: pre), post. rewrite E. reflexivity.
    + intros [[|a pre] [post E]].
      * left. eauto.
      * right. injection E as -> ->. eauto.
Qed.

Lemma occurs_at_cons (sub s : str) (c : ascii) (i : nat) :
  OccursAt sub (c :: s) (S i) <-> OccursAt sub s i.
Proof.
  unfold OccursAt. split.
  - intros [[|a pre] [post [E L]]]; [discriminate|].
    injection E as -> ->. injection L as L. eauto.
  - intros [pre [post [-> L]]]. exists (c :: pre), post. simpl. auto.
Qed.

Lemma occurs_at_0 (sub s : str) : OccursAt sub s 0 <-> startswith sub s = true.
Proof.
  rewrite startswith_iff. unfold OccursAt. split.
  - intros [[|a pre] [post [E L]]]; [eauto|discriminate].
  - intros [post ->]. exists [], post. auto.
Qed.

Lemma find_from_spec (sub s : str) (pos : Z) :
  (find_from sub s pos = (-1)%Z /\ str_in sub s = false) \/
  (exists i, find_from sub s pos = (pos + Z.of_nat i)%Z /\ OccursAt sub s i /\
             forall j, OccursAt sub s j -> i <= j).
Proof.
  revert pos; induction s as [|c s IH]; intros pos; simpl.
  - destruct (startswith sub []) eqn:E.
    + right. exists 0. rewrite Z.add_0_r. split; [reflexivity|].
      split; [apply occurs_at_0; exact E | intros; lia].
    + left. auto.
  - destruct (startswith sub (c :: s)) eqn:E.
    + right. exists 0. rewrite Z.add_0_r. split; [reflexivity|].
      split; [apply occurs_at_0; exact E | intros; lia].
    + simpl. destruct (IH (pos + 1)%Z) as [[H1 H2] | [i [H1 [H2 H3]]]].
      * left. auto.
      * right. exists (S i). split; [rewrite H1; lia|].
        split; [apply occurs_at_cons; exact H2|].
        intros [|j] Hj.
        -- apply occurs_at_0 in Hj. congruence.
        -- apply occurs_at_cons in Hj. apply H3 in Hj. lia.
Qed.

(** [find] returns -1 exactly when there is no occurrence, and the index
    of the leftmost occurrence otherwise. *)
Lemma find_spec (s sub : str) :
  (find s sub = (-1)%Z /\ ~ Substr sub s) \/
  (exists i, find s sub = Z.of_nat i /\ OccursAt sub s i /\
             forall j, OccursAt sub s j -> i <= j).
Proof.
  unfold find.
  destruct (find_from_spec sub s 0) as [[H1 H2] | [i [H1 H2]]].
  - left. split; [exact H1|]. rewrite <- str_in_iff. congruence.
  - right. exists i. rewrite H1. auto.
Qed.

Lemma find_absent (s sub : str) : ~ Substr sub s -> find s sub = (-1)%Z.
Proof.
  intros H. destruct (find_spec s sub) as [[E _] | [i [_ [[pre [post [E _]]] _]]]].
  - exact E.
  - exfalso. apply H. exists pre, post. exact E.
Qed.

Lemma find_present (s sub : str) :
  Substr sub s ->
  exists i, find s sub = Z.of_nat i /\ OccursAt sub s i /\
            forall j, OccursAt sub s j -> i <= j.
Proof.
  intros H. destruct (find_spec s sub) as [[_ N] | R]; [contradiction | exact R].
Qed.

Lemma ustartswith_iff (p s : ustr) :
  ustartswith p s = true <-> exists post, s = p ++ post.
Proof.
  revert s; induction p as [|a p IH]; intros s; simpl.
  - split; eauto.
  - destruct s as [|b s].
    + split; [congruence | intros [post E]; discriminate].
    + rewrite andb_true_iff, N.eqb_eq, IH. split.
      * intros [-> [post ->]]. eauto.
      * intros [post E]. injection E as -> ->. eauto.
Qed.

Lemma ustr_in_iff (sub s : ustr) : ustr_in sub s = true <-> Substr sub s.
Proof.
  unfold Substr. induction s as [|c s IH]; simpl.
  - rewrite orb_false_r, ustartswith_iff. split.
    + intros [post E]. exists [], post. exact E.
    + intros [pre [post E]]. destruct pre; [eauto|discriminate].
  - rewrite orb_true_iff, ustartswith_iff, IH. split.
    + intros [[post E] | [pre [post E]]].
      * exists [], post. exact E.
      * exists (c :: pre), post. rewrite E. reflexivity.
    + intros [[|a pre] [post E]].
      * left. eauto.
      * right. injection E as -> ->. eauto.
Qed.

Lemma upper_app (a b : str) : upper (a ++ b) = upper a ++ upper b.
Proof. apply flat_map_app. Qed.

(** A character gives one code point in upper case, but for sharp s. *)
Lemma upper_point_cases (c : ascii) :
  upper_point c = [83%N; 83%N] \/ exists u, upper_point c = [u].
Proof.
  destruct c as [[] [] [] [] [] [] [] []]; vm_compute;
    first [left; reflexivity | right; eexists; reflexivity].
Qed.

(** An occurrence at the head of an upper-cased text of a word that takes
    no half of a sharp s is the upper case of a head of the text. *)
Lemma upper_head_aligned (s : str) : forall kw post,
  upper s = kw ++ post -> s_followed kw = true ->
  exists mid rest, s = mid ++ rest /\ upper mid = kw.
Proof.
  induction s as [|c s IH]; intros kw post E F.
  - destruct kw; [|discriminate]. exists [], []. auto.
  - destruct kw as [|a r]; [exists [], (c :: s); auto|].
    change (upper (c :: s)) with (upper_point c ++ upper s) in E.
    simpl in F. apply andb_true_iff in F. destruct F as [Fa Fr].
    destruct (upper_point_cases c) as [U | [u U]]; rewrite U in E.
    + injection E as <- E. destruct r as [|b r].
      * discriminate Fa.
      * injection E as <- _. discriminate Fa.
    + injection E as <- E. destruct (IH r post E Fr) as [mid [rest [-> Em]]].
      exists (c :: mid), rest. split; [reflexivity|].
      change (upper (c :: mid)) with (upper_point c ++ upper mid).
      rewrite U, Em. reflexivity.
Qed.

(** So is an occurrence anywhere, when the word does not start with S. *)
Lemma upper_aligned (s : str) : forall pre a r post,
  upper s = pre ++ (a :: r) ++ post ->
  a <> 83%N -> s_followed (a :: r) = true ->
  exists p mid q, s = p ++ mid ++ q /\ upper mid = a :: r.
Proof.
  induction s as [|c s IH]; intros pre a r post E Na F.
  - destruct pre; discriminate.
  - destruct pre as [|x pre].
    + destruct (upper_head_aligned (c :: s) (a :: r) post E F) as [mid [rest [Es Em]]].
      exists [], mid, rest. auto.
    + change (upper (c :: s)) with (upper_point c ++ upper s) in E.
      destruct (upper_point_cases c) as [U | [u U]]; rewrite U in E.
      * injection E as <- E. destruct pre as [|y pre].
        -- injection E as E _. congruence.
        -- injection E as <- E.
           destruct (IH pre a r post E Na F) as [p [mid [q [-> Em]]]].
           exists (c :: p), mid, q. auto.
      * injection E as <- E.
        destruct (IH pre a r post E Na F) as [p [mid [q [-> Em]]]].
        exists (c :: p), mid, q. auto.
Qed.

Lemma code_injective (a b : ascii) : code a = code b -> a = b.
Proof.
  unfold code. intros E.
  rewrite <- (ascii_N_embedding a), <- (ascii_N_embedding b), E. reflexivity.
Qed.

(** The characters of a text whose code points occur in another are
    characters of that one. *)
Lemma wide_substr_incl (sub s : str) (c : ascii) :
  Substr (wide sub) (wide s) -> In c sub -> In c s.
Proof.
  intros [pre [post E]] I.
  assert (Ic : In (code c) (wide s)).
  { rewrite E. apply in_or_app. right. apply in_or_app. left.
    apply in_map. exact I. }
  apply in_map_iff in Ic. destruct Ic as [c' [Ec Ic]].
  apply code_injective in Ec. subst c'. exact Ic.
Qed.

Lemma lstrip_by_decomp (p : ascii -> bool) (s : str) :
  exists ws, s = ws ++ lstrip_by p s /\ forallb p ws = true.
Proof.
  induction s as [|c s [ws [E F]]]; simpl.
  - exists []. auto.
  - destruct (p c) eqn:Pc.
    + exists (c :: ws). simpl. rewrite Pc, F. split; [congruence | reflexivity].
    + exists []. auto.
Qed.

Lemma rstrip_by_decomp (p : ascii -> bool) (s : str) :
  exists ws, s = rstrip_by p s ++ ws /\ forallb p ws = true.
Proof.
  unfold rstrip_by. destruct (lstrip_by_decomp p (rev s)) as [ws [E F]].
  exists (rev ws). split.
  - rewrite <- rev_app_distr, <- E, rev_involutive. reflexivity.
  - rewrite forallb_forall in *. intros x Hx. apply F. apply in_rev. exact Hx.
Qed.

(** Stripping removes a run of the stripped characters at each end. *)
Lemma strip_by_decomp (p : ascii -> bool) (s : str) :
  exists l r, s = l ++ strip_by p s ++ r /\
              forallb p l = true /\ forallb p r = true.
Proof.
  unfold strip_by.
  destruct (lstrip_by_decomp p s) as [l [E F]].
  destruct (rstrip_by_decomp p (lstrip_by p s)) as [r [E' F']].
  exists l, r. rewrite <- E'. auto.
Qed.

Lemma word_count_ok_iff (s : str) :
  word_count_ok s = true <-> 2 <= length (split s) <= 5.
Proof.
  unfold word_count_ok, len. rewrite andb_true_iff, !Z.leb_le. lia.
Qed.

Lemma word_count_ok_nonempty (s : str) : word_count_ok s = true -> truthy s = true.
Proof.
  rewrite word_count_ok_iff. destruct s; simpl; [lia | reflexivity].
Qed.

Lemma last_char_app (prev : option ascii) (a b : str) :
  last_char prev (a ++ b) = last_char (last_char prev a) b.
Proof. unfold last_char. apply fold_left_app. Qed.

Lemma last_char_cons (prev : option ascii) (c : ascii) (a : str) :
  last_char prev (c :: a) = last_char (Some c) a.
Proof. reflexivity. Qed.

Lemma last_char_snoc (prev : option ascii) (a : str) (c : ascii) :
  last_char prev (a ++ [c]) = Some c.
Proof. rewrite last_char_app. reflexivity. Qed.

Lemma last_char_all (p : ascii -> bool) (prev : option ascii) (a : str) :
  forallb p a = true -> a <> [] -> exists c, last_char prev a = Some c /\ p c = true.
Proof.
  intros F N. destruct (exists_last N) as [a' [c ->]].
  exists c. rewrite last_char_snoc. split; [reflexivity|].
  rewrite forallb_app in F. apply andb_true_iff in F. destruct F as [_ F].
  simpl in F. rewrite andb_true_r in F. exact F.
Qed.

End Strings.

(** ** The matcher against what a pattern matches *)

Section Matcher.

Variable ic : bool.

Lemma within_pred (n : nat) (hi : option nat) :
  within (S n) hi <-> within n (option_map pred hi) /\ room hi = true.
Proof.
  destruct hi as [[|h]|]; simpl.
  - split; [lia | intros [_ H]; discriminate].
  - split; [intros; split; [lia | reflexivity] | intros [H _]; lia].
  - tauto.
Qed.

(** A successful repetition took a run of the class within its bounds,
    and the continuation succeeded after it. *)
Lemma rep_greedy_sound (p : ascii -> bool) k lo hi prev s pos res :
  rep_greedy p k lo hi prev s pos = Some res ->
  exists run s',
    s = run ++ s' /\ forallb p run = true /\ lo <= length run /\
    within (length run) hi /\
    k (last_char prev run) s' (pos + length run) = Some res.
Proof.
  revert lo hi prev pos.
  assert (Stop : forall lo hi prev s pos,
             match lo with 0 => k prev s pos | S _ => None end = Some res ->
             exists run s',
               s = run ++ s' /\ forallb p run = true /\ lo <= length run /\
               within (length run) hi /\
               k (last_char prev run) s' (pos + length run) = Some res).
  { intros [|lo] hi prev s0 pos H; [|discriminate].
    exists [], s0. simpl. rewrite Nat.add_0_r.
    repeat split; auto. destruct hi; simpl; auto; lia. }
  induction s as [|c s IH]; intros lo hi prev pos H; simpl in H.
  - apply Stop; exact H.
  - destruct (p c && room hi) eqn:E; [|apply Stop; exact H].
    apply andb_true_iff in E. destruct E as [Pc Rm].
    destruct (rep_greedy p k (pred lo) (option_map pred hi) (Some c) s (S pos)) eqn:R.
    + injection H as ->. apply IH in R.
      destruct R as [run [s' [-> [F [Lo [Hi K]]]]]].
      exists (c :: run), s'. simpl. rewrite Pc, F.
      repeat split; auto; try lia.
      * apply within_pred. auto.
      * rewrite <- K. f_equal. lia.
    + apply Stop; exact H.
Qed.

(** Whenever some admissible run lets the continuation succeed, the
    repetition succeeds (with the longest such run). *)
Lemma rep_greedy_complete (p : ascii -> bool) k run : forall lo hi prev s' pos res,
  forallb p run = true -> lo <= length run -> within (length run) hi ->
  k (last_char prev run) s' (pos + length run) = Some res ->
  exists res', rep_greedy p k lo hi prev (run ++ s') pos = Some res'.
Proof.
  induction run as [|c run IH]; intros lo hi prev s' pos res F Lo Hi K; simpl in *.
  - assert (lo = 0) by lia. subst lo. rewrite Nat.add_0_r in K.
    destruct s' as [|c s']; simpl; [eauto|].
    destruct (p c && room hi); [|eauto].
    destruct (rep_greedy p k 0 (option_map pred hi) (Some c) s' (S pos)); eauto.
  - apply andb_true_iff in F. destruct F as [Pc F].
    apply within_pred in Hi. destruct Hi as [Hi Rm]. rewrite Pc, Rm. simpl.
    destruct (IH (pred lo) (option_map pred hi) (Some c) s' (S pos) res) as [res' R];
      auto; try lia.
    + rewrite <- K. f_equal. lia.
    + rewrite R. eauto.
Qed.

Theorem match_items_sound (its : list item) : forall g prev s pos res,
  match_items ic its g prev s pos = Some res ->
  Matches ic its g prev s pos res.
Proof.
  induction its as [|it its IH]; intros g prev s pos res H; simpl in H.
  - injection H as <-. constructor.
  - destruct it.
    + destruct s as [|c s]; [discriminate|].
      destruct (cmatch ic p c) eqn:E; [|discriminate].
      constructor; auto.
    + apply rep_greedy_sound in H.
      destruct H as [run [s' [-> [F [Lo [Hi K]]]]]].
      constructor; auto.
    + destruct (at_boundary prev s) eqn:E; [|discriminate]. constructor; auto.
    + destruct (at_start prev) eqn:E; [|discriminate]. constructor; auto.
    + destruct (at_end s) eqn:E; [|discriminate]. constructor; auto.
    + constructor; auto.
    + constructor; auto.
Qed.

Theorem match_items_complete its g prev s pos res :
  Matches ic its g prev s pos res ->
  exists res', match_items ic its g prev s pos = Some res'.
Proof.
  induction 1; simpl.
  - eauto.
  - rewrite H. exact IHMatches.
  - destruct IHMatches as [res' K].
    eapply rep_greedy_complete; eauto.
  - rewrite H. exact IHMatches.
  - rewrite H. exact IHMatches.
  - rewrite H. exact IHMatches.
  - exact IHMatches.
  - exact IHMatches.
Qed.

Lemma match_items_none its g prev s pos :
  match_items ic its g prev s pos = None <->
  forall res, ~ Matches ic its g prev s pos res.
Proof.
  split.
  - intros N res M. apply match_items_complete in M. destruct M as [r M]. congruence.
  - intros N. destruct (match_items ic its g prev s pos) eqn:E; [|reflexivity].
    apply match_items_sound in E. exfalso. eapply N; eauto.
Qed.

End Matcher.

(** ** [re.search]: the leftmost position that has a match *)

Section Search.

Variable re : regex.

Lemma firstn_snoc_skipn (s : str) (j : nat) (c : ascii) (s' : str) :
  skipn j s = c :: s' -> firstn (S j) s = firstn j s ++ [c] /\ skipn (S j) s = s'.
Proof.
  revert s; induction j as [|j IH]; intros s E.
  - simpl in E. subst s. auto.
  - destruct s as [|a s]; [discriminate|]. simpl in E.
    destruct (IH _ E) as [E1 E2]. split.
    + change (firstn (S (S j)) (a :: s)) with (a :: firstn (S j) s).
      rewrite E1. reflexivity.
    + exact E2.
Qed.

(** The search from index [j] of [text]. *)
Lemma search_from_spec (text : str) : forall s j,
  j <= length text -> skipn j text = s ->
  match search_from re text (last_char None (firstn j text)) s j with
  | Some m =>
      m_string m = text /\ j <= m_start m /\
      MatchAt re text (m_start m) (m_end m, m_span1 m) /\
      match_at re (last_char None (firstn (m_start m) text))
               (skipn (m_start m) text) (m_start m) = Some (m_end m, m_span1 m) /\
      forall i res, j <= i -> MatchAt re text i res -> m_start m <= i
  | None => forall i res, j <= i -> ~ MatchAt re text i res
  end.
Proof.
  induction s as [|c s IH]; intros j Hj E; simpl.
  - destruct (match_at re (last_char None (firstn j text)) [] j) as [r|] eqn:M.
    + simpl. rewrite <- E in M. destruct r as [e g].
      split; [reflexivity|]. split; [lia|]. split; [|split; [exact M|auto]].
      split; [exact Hj|]. apply match_items_sound. exact M.
    + intros i res Hi [Li Mi].
      assert (length text <= j).
      { rewrite <- (firstn_skipn j text) at 1. rewrite E, app_nil_r.
        rewrite length_firstn. lia. }
      assert (i = j) by lia. subst i. rewrite E in Mi.
      apply match_items_complete in Mi. destruct Mi as [r' Mi].
      unfold match_at in M. congruence.
  - destruct (match_at re (last_char None (firstn j text)) (c :: s) j) as [r|] eqn:M.
    + simpl. rewrite <- E in M. destruct r as [e g].
      split; [reflexivity|]. split; [lia|]. split; [|split; [exact M|auto]].
      split; [exact Hj|]. apply match_items_sound. exact M.
    + destruct (firstn_snoc_skipn _ _ E) as [E1 E2].
      assert (Lt : S j <= length text).
      { assert (L : length (skipn j text) = S (length s)) by (rewrite E; reflexivity).
        rewrite length_skipn in L. lia. }
      specialize (IH (S j) Lt E2). rewrite E1, last_char_snoc in IH.
      assert (Here : forall res, ~ MatchAt re text j res).
      { intros res [_ Mj]. rewrite E in Mj.
        apply match_items_complete in Mj. destruct Mj as [r' Mj].
        unfold match_at in M. congruence. }
      destruct (search_from re text (Some c) s (S j)) as [m|].
      * destruct IH as [S1 [S2 [S3 [S4 S5]]]].
        split; [exact S1|]. split; [lia|]. split; [exact S3|]. split; [exact S4|].
        intros i res Hi Mi. destruct (Nat.eq_dec i j) as [->|Ne].
        -- exfalso. eapply Here; eauto.
        -- apply (S5 i res); auto. lia.
      * intros i res Hi Mi. destruct (Nat.eq_dec i j) as [->|Ne].
        -- eapply Here; eauto.
        -- apply (IH i res); auto. lia.
Qed.

Theorem search_some (text : str) (m : rmatch) :
  search re text = Some m ->
  m_string m = text /\
  MatchAt re text (m_start m) (m_end m, m_span1 m) /\
  forall i res, MatchAt re text i res -> m_start m <= i.
Proof.
  intros H. pose proof (search_from_spec text (j := 0) (Nat.le_0_l _) eq_refl) as S.
  simpl in S. unfold search in H. rewrite H in S.
  destruct S as [S1 [_ [S3 [_ S5]]]].
  split; [exact S1|]. split; [exact S3|].
  intros i res. apply S5. lia.
Qed.

Theorem search_none (text : str) :
  search re text = None <-> ~ HasMatch re text.
Proof.
  pose proof (search_from_spec text (j := 0) (Nat.le_0_l _) eq_refl) as S.
  simpl in S. unfold search. split.
  - intros H. rewrite H in S. intros [i [res M]]. apply (S i res); auto. lia.
  - intros N. destruct (search_from re text None text 0) as [m|]; [|reflexivity].
    exfalso. apply N. destruct S as [_ [_ [S3 _]]]. red. eauto.
Qed.

Theorem search_found (text : str) :
  found (search re text) = true <-> HasMatch re text.
Proof.
  destruct (search re text) as [m|] eqn:E; simpl.
  - split; [|reflexivity]. intros _. apply search_some in E.
    destruct E as [_ [M _]]. red. eauto.
  - apply search_none in E. split; [discriminate | contradiction].
Qed.

End Search.

(** ** Slices *)

Section Slices.

Context {A : Type}.

Lemma clamp_nat (n i : nat) : clamp (Z.of_nat n) (Z.of_nat i) = Nat.min n i.
Proof.
  unfold clamp. destruct (Z.ltb_spec (Z.of_nat i) 0); lia.
Qed.

(** On indices that are not negative, [s[a:b]] drops [a] characters of the
    first [b]. *)
Lemma slice_nat (s : list A) (a b : nat) :
  slice s (Z.of_nat a) (Z.of_nat b) = skipn a (firstn b s).
Proof.
  unfold slice, len. rewrite !clamp_nat, skipn_firstn_comm.
  destruct (Nat.le_gt_cases a (length s)) as [La|La].
  - rewrite (Nat.min_r _ a) by exact La.
    destruct (Nat.le_gt_cases b (length s)) as [Lb|Lb].
    + rewrite (Nat.min_r _ b) by exact Lb. reflexivity.
    + rewrite (Nat.min_l _ b) by lia.
      rewrite !firstn_all2; try reflexivity; rewrite length_skipn; lia.
  - rewrite (Nat.min_l _ a) by lia.
    rewrite (skipn_all2 s (n := a)) by lia.
    rewrite skipn_all. rewrite !firstn_nil. reflexivity.
Qed.

Lemma slice_to_nat (s : list A) (b : nat) : slice_to s (Z.of_nat b) = firstn b s.
Proof. unfold slice_to. change 0%Z with (Z.of_nat 0). rewrite slice_nat. reflexivity. Qed.

Lemma app_same_length (a a' b b' : list A) :
  length a = length a' -> a ++ b = a' ++ b' -> a = a' /\ b = b'.
Proof.
  revert a'; induction a as [|x a IH]; intros [|y a'] L E; simpl in *;
    try discriminate; auto.
  injection E as -> E. injection L as L.
  destruct (IH a' L E) as [-> ->]. auto.
Qed.

Lemma firstn_incl (l : list A) (n : nat) (x : A) : In x (firstn n l) -> In x l.
Proof.
  revert n; induction l as [|y l IH]; intros [|n] H; simpl in *; try contradiction.
  destruct H as [H|H]; eauto.
Qed.

Lemma firstn_NoDup (l : list A) (n : nat) : NoDup l -> NoDup (firstn n l).
Proof.
  revert n; induction l as [|x l IH]; intros [|n] H; simpl; try constructor.
  - inversion H; subst. intros I. apply firstn_incl in I. contradiction.
  - inversion H; subst. auto.
Qed.

Lemma firstn_StronglySorted (R : A -> A -> Prop) (l : list A) (n : nat) :
  StronglySorted R l -> StronglySorted R (firstn n l).
Proof.
  revert n; induction l as [|x l IH]; intros [|n] H; simpl; try constructor.
  - inversion H; subst. auto.
  - inversion H; subst. rewrite Forall_forall in *.
    intros y Hy. apply firstn_incl in Hy. auto.
Qed.

Lemma snoc_StronglySorted (R : A -> A -> Prop) (l : list A) (x : A) :
  StronglySorted R l -> Forall (fun a => R a x) l -> StronglySorted R (l ++ [x]).
Proof.
  induction l as [|y l IH]; intros S F; simpl.
  - repeat constructor.
  - inversion S; subst. inversion F; subst. constructor; auto.
    apply Forall_app. split; auto.
Qed.

End Slices.

(** ** The occupant block parser *)

Section Occupants.

(** What the loop over the lines adds: names cut from a cleaned line,
    with two to five words. *)
Lemma occupants_step_inv (lines : list str) : forall acc o,
  In o (fold_left occupants_step lines acc) ->
  In o acc \/
  exists l, In l lines /\ name o = name_only (clean_line l) /\
            word_count_ok (name o) = true.
Proof.
  induction lines as [|l lines IH]; intros acc o H; simpl in H; [auto|].
  apply IH in H. destruct H as [H | [l' [I H]]].
  - unfold occupants_step in H.
    destruct (str_in (lit "Names & Addresses") l || str_in (lit "If Deceased") l); auto.
    destruct (found (rmatch_at0 NUMERIC_LINE_RE l)); auto.
    destruct (found (search TWO_WORDS_RE l)); auto.
    destruct (word_count_ok (name_only (clean_line l))) eqn:W; auto.
    apply in_app_or in H. destruct H as [H | [<- | []]]; auto.
    right. exists l. simpl. auto.
  - right. exists l'. simpl. auto.
Qed.

Lemma first_index_app (n : str) (done rest : list occupant) :
  (forall o, In o done -> name o <> n) ->
  first_index n (done ++ rest) = length done + first_index n rest.
Proof.
  induction done as [|x done IH]; intros H; simpl; [reflexivity|].
  destruct (str_eqb (name x) n) eqn:E.
  - apply str_eqb_eq in E. exfalso. apply (H x); simpl; auto.
  - rewrite IH; auto. intros o I. apply H. simpl. auto.
Qed.

Lemma first_index_lt (n : str) (l : list occupant) (o : occupant) :
  In o l -> name o = n -> first_index n l < length l.
Proof.
  induction l as [|x l IH]; intros I E; simpl in *; [contradiction|].
  destruct (str_eqb (name x) n) eqn:Ex; [lia|].
  destruct I as [->|I]; [apply str_eqb_neq in Ex; contradiction|].
  apply IH in I; auto. lia.
Qed.

Lemma first_index_app_lt (n : str) (done rest : list occupant) (o : occupant) :
  In o done -> name o = n ->
  first_index n (done ++ rest) = first_index n done.
Proof.
  induction done as [|x done IH]; intros I E; simpl in *; [contradiction|].
  destruct (str_eqb (name x) n) eqn:Ex; [reflexivity|].
  destruct I as [->|I]; [apply str_eqb_neq in Ex; contradiction|].
  rewrite IH; auto.
Qed.

Lemma seen_existsb (n : str) (seen : list str) :
  existsb (str_eqb n) seen = true <-> In n seen.
Proof.
  rewrite existsb_exists. split.
  - intros [x [I E]]. apply str_eqb_eq in E. subst. exact I.
  - intros I. exists n. split; [exact I | apply str_eqb_refl].
Qed.

Lemma dedup_loop_inv (results : list occupant) : forall todo done st,
  results = done ++ todo ->
  dedup_inv results done st ->
  dedup_inv results results (fold_left dedup_step todo st).
Proof.
  induction todo as [|r todo IH]; intros done [dedup seen] E Inv; simpl.
  - rewrite app_nil_r in E. subst done. exact Inv.
  - apply (IH (done ++ [r])); [rewrite <- app_assoc; exact E|].
    destruct Inv as [I1 [I2 [I3 [I4 I5]]]]. unfold dedup_step.
    destruct (existsb (str_eqb (name r)) seen) eqn:Ex.
    + apply seen_existsb in Ex. repeat split; auto.
      * apply I1.
      * apply I1.
      * intros o I. apply in_or_app. auto.
      * intros o I. apply in_app_or in I. destruct I as [I | [<- | []]]; auto.
    + assert (Nr : ~ In (name r) seen).
      { intros I. apply seen_existsb in I. congruence. }
      split; [|split; [|split; [|split]]].
      * intros n. rewrite map_app, in_app_iff. simpl. rewrite <- I1. tauto.
      * rewrite map_app. simpl. apply NoDup_app; auto.
        -- repeat constructor. simpl. tauto.
        -- intros x Hx [<- | []]. apply Nr. apply I1. exact Hx.
      * intros o I. apply in_or_app. apply in_app_or in I.
        destruct I as [I | I]; auto.
      * intros o I. apply in_app_or in I. simpl.
        destruct I as [I | [<- | []]]; auto.
      * apply snoc_StronglySorted; auto.
        apply Forall_forall. intros a Ha.
        assert (Fr : first_index (name r) results = length done).
        { rewrite E, first_index_app.
          - simpl. rewrite str_eqb_refl. lia.
          - intros o Io Eo. apply Nr. rewrite <- Eo. auto. }
        assert (Fa : first_index (name a) (done ++ r :: todo)
                     = first_index (name a) done)
          by (eapply first_index_app_lt; eauto).
        rewrite Fr. rewrite E, Fa.
        eapply first_index_lt; eauto.
Qed.

End Occupants.

(** ** Properties of [parse_occupants] and [parse_document] *)

Section Document.

#[local] Arguments firstn : simpl never.

Lemma parse_occupants_absent (text : str) :
  ~ Substr anchor_text text -> parse_occupants text = [].
Proof.
  intros H. unfold parse_occupants. fold anchor_text.
  rewrite (find_absent H). reflexivity.
Qed.

Lemma parse_occupants_present (text : str) :
  Substr anchor_text text ->
  parse_occupants text =
  firstn 30 (fst (fold_left dedup_step
                    (occupant_results text (find text anchor_text)) ([], []))).
Proof.
  intros H. unfold parse_occupants. fold anchor_text.
  destruct (find_present H) as [i [E _]]. rewrite E.
  destruct (Z.eqb_spec (Z.of_nat i) (-1)); [lia|].
  destruct (fold_left dedup_step _ _) as [dedup seen]. simpl.
  change 30%Z with (Z.of_nat 30). apply slice_to_nat.
Qed.

Lemma occupant_eta (a b : occupant) : name a = name b -> a = b.
Proof. destruct a, b; simpl; congruence. Qed.

Lemma substr_dec (sub s : str) : {Substr sub s} + {~ Substr sub s}.
Proof.
  destruct (str_in sub s) eqn:E.
  - left. apply str_in_iff. exact E.
  - right. rewrite <- str_in_iff. congruence.
Qed.

(** Every occupant returned comes from a line of the block: its name is
    the candidate cut from the cleaned line, and has two to five words. *)
Lemma parse_occupants_origin (text : str) (o : occupant) :
  In o (parse_occupants text) ->
  exists l, In l (occupant_lines text (find text anchor_text)) /\
            name o = name_only (clean_line l) /\ word_count_ok (name o) = true.
Proof.
  intros H. destruct (substr_dec anchor_text text) as [P|N].
  - rewrite (parse_occupants_present P) in H. apply firstn_incl in H.
    pose proof (@dedup_loop_inv (occupant_results text (find text anchor_text))
                  (occupant_results text (find text anchor_text)) [] ([], [])) as Inv.
    destruct (fold_left dedup_step _ _) as [dedup seen]. simpl in H.
    destruct Inv as [_ [_ [I3 _]]].
    + reflexivity.
    + simpl. repeat split; auto; try constructor; try contradiction.
    + apply I3 in H. unfold occupant_results in H.
      apply occupants_step_inv in H. destruct H as [[] | [l [I H]]]. eauto.
  - rewrite (parse_occupants_absent N) in H. contradiction.
Qed.

(** C5.  The occupant list has at most 30 entries and no name twice; it
    keeps the accepted candidates in the order in which their names first
    appear, and leaves a candidate out only when it is full. *)
Theorem parse_occupants_capped_unique (text : str) :
  length (parse_occupants text) <= 30 /\
  NoDup (map name (parse_occupants text)) /\
  ((~ Substr anchor_text text /\ parse_occupants text = []) \/
   (Substr anchor_text text /\
    exists results,
      results = occupant_results text (find text anchor_text) /\
      (forall o, In o (parse_occupants text) -> In o results) /\
      StronglySorted
        (fun a b => first_index (name a) results < first_index (name b) results)
        (parse_occupants text) /\
      (forall o, In o results ->
                 In o (parse_occupants text) \/ length (parse_occupants text) = 30))).
Proof.
  destruct (substr_dec anchor_text text) as [P|N].
  - rewrite (parse_occupants_present P).
    set (results := occupant_results text (find text anchor_text)).
    pose proof (@dedup_loop_inv results results [] ([], [])) as Inv.
    destruct (fold_left dedup_step results ([], [])) as [dedup seen]. simpl.
    destruct Inv as [I1 [I2 [I3 [I4 I5]]]].
    + reflexivity.
    + simpl. repeat split; auto; try constructor; try contradiction.
    + split; [rewrite length_firstn; lia|].
      split; [rewrite <- firstn_map; apply firstn_NoDup; exact I2|].
      right. split; [exact P|]. exists results.
      split; [reflexivity|].
      split; [intros o I; apply I3; eapply firstn_incl; eauto|].
      split; [apply firstn_StronglySorted; exact I5|].
      intros o I. apply I4, I1, in_map_iff in I. destruct I as [o' [E I]].
      apply occupant_eta in E. subst o'.
      destruct (Nat.le_gt_cases (length dedup) 30) as [L|L].
      * left. rewrite firstn_all2; auto.
      * right. rewrite length_firstn. lia.
  - rewrite (parse_occupants_absent N). simpl.
    split; [lia|]. split; [constructor|]. left. auto.
Qed.

(** C6.  Every occupant name returned has between two and five words. *)
Theorem parse_occupants_word_count (text : str) (o : occupant) :
  In o (parse_occupants text) ->
  2 <= length (split (name o)) <= 5.
Proof.
  intros H. apply parse_occupants_origin in H.
  destruct H as [l [_ [_ W]]]. apply word_count_ok_iff. exact W.
Qed.

Lemma rows_loop {A B : Type} (f : A -> B) (l : list A) : forall acc,
  fold_left (fun rows o => rows ++ [f o]) l acc = acc ++ map f l.
Proof.
  induction l as [|x l IH]; intros acc; simpl.
  - rewrite app_nil_r. reflexivity.
  - rewrite IH, <- app_assoc. reflexivity.
Qed.

(** The row of an occupant. *)
Lemma parse_document_rows (text : str) :
  parse_occupants text <> [] ->
  parse_document text =
  map (fun o =>
         {| CaseNumber := group1_or_empty (search CASE_RE text);
            PoliceDept := match search DEPT_RE text with
                          | Some m => strip (group1 m)
                          | None => []
                          end;
            DateOfCrash := group1_or_empty (search DATE_RE text);
            Name := name o;
            NotAtFault :=
              not_at_fault (upper (or_empty (find_charged_driver_hint text))) (name o);
            CommercialVehicleFlag := yes_no (flag_commercial text);
            FatalFlag := yes_no (py_bool (flag_fatal text)) |})
      (parse_occupants text).
Proof.
  intros H. unfold parse_document. rewrite rows_loop. simpl.
  destruct (parse_occupants text) as [|o l]; [congruence|]. reflexivity.
Qed.

Lemma parse_document_placeholder (text : str) :
  parse_occupants text = [] ->
  parse_document text =
  [placeholder (group1_or_empty (search CASE_RE text))
               (match search DEPT_RE text with
                | Some m => strip (group1 m)
                | None => []
                end)
               (group1_or_empty (search DATE_RE text))
               (yes_no (flag_commercial text))
               (yes_no (py_bool (flag_fatal text)))].
Proof.
  intros H. unfold parse_document. rewrite H. reflexivity.
Qed.

(** C7.  Without the occupants anchor the occupant list is empty and the
    document has one row: the placeholder, with an empty not-at-fault
    field, which is neither "Yes" nor "No". *)
Theorem no_anchor_placeholder_row (text : str) :
  ~ Substr anchor_text text ->
  parse_occupants text = [] /\
  exists r,
    parse_document text = [r] /\
    Name r = lit "(no occupants parsed)" /\
    NotAtFault r = [] /\
    NotAtFault r <> lit "Yes" /\ NotAtFault r <> lit "No".
Proof.
  intros H. apply parse_occupants_absent in H. split; [exact H|].
  rewrite (parse_document_placeholder _ H).
  eexists. split; [reflexivity|]. simpl.
  repeat split; discriminate.
Qed.

End Document.

(** ** The flags and the not-at-fault label *)

Section Flags.

(** The keywords are in upper case, start with no S and have no S
    before another S or at their end. *)
Lemma commercial_keys_upper (k : str) :
  In k commercial_keys ->
  upper k = wide k /\
  exists a r, wide k = a :: r /\ a <> 83%N /\ s_followed (a :: r) = true.
Proof.
  intros I. unfold commercial_keys in I. simpl in I.
  repeat (destruct I as [<- | I];
          [split; [reflexivity|]; do 2 eexists;
           split; [reflexivity|]; split; [discriminate | reflexivity]|]).
  contradiction.
Qed.

Lemma flag_commercial_true (text : str) :
  flag_commercial text = true <->
  exists k, In k commercial_keys /\ Substr (wide k) (upper text).
Proof.
  unfold flag_commercial. rewrite existsb_exists.
  split; intros [k [I H]]; exists k; split; auto; apply ustr_in_iff; exact H.
Qed.

(** For a keyword, to occur in the upper-cased text is to occur in the
    text up to case. *)
Lemma keyword_up_to_case (k text : str) :
  In k commercial_keys ->
  (Substr (wide k) (upper text) <-> SubstrCI k text).
Proof.
  intros I. destruct (commercial_keys_upper I) as [U [a [r [W [Na F]]]]]. split.
  - intros [pre [post E]]. rewrite W in E.
    destruct (@upper_aligned text pre a r post E Na F) as [p [mid [q [Es Em]]]].
    exists p, mid, q. split; [exact Es|]. rewrite Em, U, W. reflexivity.
  - intros [pre [mid [post [-> E]]]]. exists (upper pre), (upper post).
    rewrite !upper_app, E, U. reflexivity.
Qed.

(** C4.  The commercial flag is set exactly when the upper-cased text
    contains one of the eight keywords, that is, when the text contains one
    of them up to the case of letters. *)
Theorem flag_commercial_iff (text : str) :
  (flag_commercial text = true <->
   exists k,
     In k (map lit ["USDOT"; "TRUCK"; "CARRIER"; "GVWR"; "PENSKE"; "FREIGHT";
                    "MC/MX"; "WEIGHT >= 26,001"]%string) /\
     Substr (wide k) (upper text)) /\
  (flag_commercial text = true <->
   exists k,
     In k (map lit ["USDOT"; "TRUCK"; "CARRIER"; "GVWR"; "PENSKE"; "FREIGHT";
                    "MC/MX"; "WEIGHT >= 26,001"]%string) /\
     SubstrCI k text).
Proof.
  split; [apply flag_commercial_true|].
  rewrite flag_commercial_true. fold commercial_keys.
  split; intros [k [I H]]; exists k; split; auto;
    apply (keyword_up_to_case text I); exact H.
Qed.

Lemma first_hint_word_count (caps : list str) (h : str) :
  first_hint caps = Some h -> word_count_ok h = true.
Proof.
  induction caps as [|c caps IH]; cbn [first_hint]; [discriminate|].
  destruct (word_count_ok (join (lit " ") (split c))) eqn:W; [|exact IH].
  intros E. injection E as <-. exact W.
Qed.

(** A hint that was found is never the empty string. *)
Lemma hint_nonempty (text h : str) :
  find_charged_driver_hint text = Some h -> truthy h = true.
Proof.
  unfold find_charged_driver_hint.
  destruct (negb (str_in (lit "136 Charge") text)); [discriminate|].
  intros H. apply first_hint_word_count in H. apply word_count_ok_nonempty. exact H.
Qed.

Lemma not_at_fault_spec (hint : option str) (occupant_name : str) :
  (forall h, hint = Some h -> truthy h = true) ->
  naf_label hint occupant_name (not_at_fault (upper (or_empty hint)) occupant_name).
Proof.
  intros Ne. unfold not_at_fault, naf_label, SubstrCaseless.
  destruct hint as [h|]; cbn [or_empty].
  - rewrite (Ne h eq_refl).
    assert (T : truthy (upper h) = true).
    { specialize (Ne h eq_refl). destruct h as [|c h]; [discriminate|].
      change (upper (c :: h)) with (upper_point c ++ upper h).
      destruct (upper_point_cases c) as [U | [u U]]; rewrite U; reflexivity. }
    rewrite T. cbn [andb].
    destruct (ustr_in (upper h) (upper occupant_name)) eqn:E.
    + left. exists h. split; [reflexivity|]. split; [|reflexivity].
      apply ustr_in_iff. exact E.
    + right. split; [|reflexivity]. intros h' Eh. injection Eh as <-.
      rewrite <- ustr_in_iff. congruence.
  - right. split; [discriminate | reflexivity].
Qed.

(** C3.  In a document with occupants there is one row per occupant, in
    order; its label is "No" when a hint was found and occurs in the
    occupant's name up to case, and "Yes" otherwise.  Without a hint every
    row says "Yes". *)
Theorem not_at_fault_rows (text : str) :
  parse_occupants text <> [] ->
  Forall2 (fun o r =>
             Name r = name o /\
             naf_label (find_charged_driver_hint text) (name o) (NotAtFault r))
          (parse_occupants text) (parse_document text) /\
  (find_charged_driver_hint text = None ->
   Forall (fun r => NotAtFault r = lit "Yes") (parse_document text)).
Proof.
  intros H. rewrite (parse_document_rows _ H). split.
  - clear H. induction (parse_occupants text) as [|o l IH]; simpl; constructor.
    + simpl. split; [reflexivity|].
      apply not_at_fault_spec. intros h. apply hint_nonempty.
    + exact IH.
  - intros N. rewrite N. apply Forall_forall. intros r I.
    apply in_map_iff in I. destruct I as [o [<- _]]. reflexivity.
Qed.

End Flags.

(** ** What the patterns of [app.py] match *)

Section Patterns.

Lemma text_at (text : str) (j : nat) : text = firstn j text ++ skipn j text.
Proof. symmetry. apply firstn_skipn. Qed.

Lemma split_at (pre rest : str) :
  firstn (length pre) (pre ++ rest) = pre /\ skipn (length pre) (pre ++ rest) = rest.
Proof.
  split.
  - rewrite firstn_app, Nat.sub_diag, firstn_all. simpl. apply app_nil_r.
  - rewrite skipn_app, Nat.sub_diag, skipn_all. reflexivity.
Qed.

Lemma boundary_before_word (prev : option ascii) (c : ascii) (s : str) :
  is_word c = true ->
  (at_boundary prev (c :: s) = true <-> word_before prev = false).
Proof.
  intros W. unfold at_boundary. simpl. rewrite W.
  destruct (word_before prev); simpl; split; congruence.
Qed.

Lemma boundary_after_word (c : ascii) (s : str) :
  is_word c = true ->
  (at_boundary (Some c) s = true <-> word_after s = false).
Proof.
  intros W. unfold at_boundary. simpl. rewrite W.
  destruct (word_after s); simpl; split; congruence.
Qed.

Lemma opt_run (c : ascii) (run : str) :
  forallb (Ascii.eqb c) run = true -> length run <= 1 -> run = [] \/ run = [c].
Proof.
  destruct run as [|a [|b run]]; simpl; intros F L; auto; [|lia].
  rewrite andb_true_r in F. apply eqb_true in F. subst a. auto.
Qed.

End Patterns.

Ltac invert_matches :=
  repeat match goal with
         | H : Matches _ (_ :: _) _ _ _ _ _ |- _ => inversion H; clear H; subst
         | H : Matches _ [] _ _ _ _ _ |- _ => inversion H; clear H; subst
         | H : cmatch false _ _ = true |- _ => unfold cmatch in H
         | H : Ascii.eqb _ ?c = true |- _ => apply Ascii.eqb_eq in H; subst c
         end.

Ltac open_pattern re :=
  let its := eval cbv [items re chars lit list_ascii_of_string map app
                       Star Plus Opt AtLeast Between] in (items re) in
  let ic := eval cbv [ignorecase re] in (ignorecase re) in
  change (items re) with its in *;
  change (ignorecase re) with ic in *.

Section Fatal.

Lemma fatal_count_matches (text : str) : FatalCount text -> HasMatch FATAL_RE text.
Proof.
  intros [pre [ws1 [ws2 [ws3 [nl [d [post [E [B [F1 [F2 [F3 [Nl D]]]]]]]]]]]]].
  exists (length pre). eexists. split.
  - subst text. rewrite length_app. lia.
  - subst text. destruct (split_at pre
      (lit "8" ++ ws1 ++ lit "Total" ++ ws2 ++ lit "Killed" ++ ws3 ++ nl ++ d :: post))
      as [-> ->].
    open_pattern FATAL_RE. cbn [lit list_ascii_of_string app].
    apply M_wordb; [apply boundary_before_word; [reflexivity | exact B]|].
    apply M_chr; [reflexivity|].
    apply M_rep; [exact F1 | lia | exact I |].
    do 5 (apply M_chr; [reflexivity|]).
    apply M_rep; [exact F2 | lia | exact I |].
    do 6 (apply M_chr; [reflexivity|]).
    apply M_rep; [exact F3 | lia | exact I |].
    apply M_rep.
    + destruct Nl as [-> | ->]; reflexivity.
    + lia.
    + destruct Nl as [-> | ->]; simpl; lia.
    + apply M_gopen. apply M_chr; [exact D|]. apply M_gclose. apply M_nil.
Qed.

Lemma fatal_matches_count (text : str) : HasMatch FATAL_RE text -> FatalCount text.
Proof.
  intros [j [res [Lj M]]]. pose proof (text_at text j) as E.
  remember (skipn j text) as s eqn:Es. clear Es.
  remember (firstn j text) as pre eqn:Ep. clear Ep.
  open_pattern FATAL_RE. invert_matches.
  match goal with H : at_boundary ?p (?c :: ?s) = true |- _ =>
    apply (proj1 (@boundary_before_word p c s eq_refl)) in H end.
  match goal with H : within (length ?r) (Some 1) |- _ =>
    rename r into nl; simpl in H end.
  exists pre. do 3 eexists. exists nl. do 2 eexists.
  split; [reflexivity|].
  split; [assumption|]. do 3 (split; [assumption|]).
  split; [apply opt_run; assumption | assumption].
Qed.

Lemma flag_fatal_true (text : str) :
  py_bool (flag_fatal text) = true <->
  Substr (lit "Total Killed") text /\ FatalCount text.
Proof.
  unfold flag_fatal. rewrite <- str_in_iff.
  destruct (str_in (lit "Total Killed") text); simpl.
  - rewrite search_found. split.
    + intros H. split; [reflexivity | apply fatal_matches_count; exact H].
    + intros [_ H]. apply fatal_count_matches. exact H.
  - split; [discriminate | intros [H _]; discriminate].
Qed.


(** Each condition can hold without the other. *)
Example count_without_literal :
  FatalCount (lit "8 Total  Killed 2") /\
  str_in (lit "Total Killed") (lit "8 Total  Killed 2") = false /\
  py_bool (flag_fatal (lit "8 Total  Killed 2")) = false.
Proof.
  split; [|split; vm_compute; reflexivity].
  apply fatal_matches_count, search_found. vm_compute. reflexivity.
Qed.

Example literal_without_count :
  str_in (lit "Total Killed") (lit "18 Total Killed 2") = true /\
  search FATAL_RE (lit "18 Total Killed 2") = None /\
  py_bool (flag_fatal (lit "18 Total Killed 2")) = false.
Proof. repeat split; vm_compute; reflexivity. Qed.

Example both_conditions :
  py_bool (flag_fatal (lit "Total Killed: see box 8 Total Killed
3")) = true.
Proof. vm_compute. reflexivity. Qed.

End Fatal.

(** ** Numbers in a cleaned line *)

Section Numbers.

Lemma digits_head_word (run post : str) :
  forallb is_digit run = true -> 1 <= length run -> word_after (run ++ post) = true.
Proof.
  destruct run as [|c run]; simpl; [lia|].
  intros F _. apply andb_true_iff in F. apply digit_is_word. tauto.
Qed.

Lemma digits_last_word (prev : option ascii) (run : str) :
  forallb is_digit run = true -> 1 <= length run ->
  word_before (last_char prev run) = true.
Proof.
  intros F L. destruct (@last_char_all is_digit prev run F) as [c [E D]].
  - destruct run; simpl in L; [lia | discriminate].
  - rewrite E. simpl. apply digit_is_word. exact D.
Qed.

(** [NUMBER_RE] matches at an index exactly when a number starts there. *)
Lemma number_match_iff (s : str) (j : nat) :
  (exists res, MatchAt NUMBER_RE s j res) <->
  exists run post, skipn j s = run ++ post /\ NumberAt (firstn j s) run post.
Proof.
  split.
  - intros [res [Lj M]].
    remember (skipn j s) as rest eqn:Er. clear Er.
    remember (last_char None (firstn j s)) as prev eqn:Ep.
    open_pattern NUMBER_RE. invert_matches.
    match goal with H : forallb _ ?r = true |- _ => rename r into run end.
    match goal with H : at_boundary _ (run ++ ?p) = true |- _ => rename p into post end.
    exists run, post. split; [reflexivity|].
    assert (F : forallb is_digit run = true) by assumption.
    assert (L : 2 <= length run) by assumption.
    split; [exact L|]. split; [exact F|].
    pose proof (@digits_head_word run post F) as Hw.
    pose proof (@digits_last_word (last_char None (firstn j s)) run F) as Lw.
    unfold at_boundary in *. rewrite Hw in * by lia. rewrite Lw in * by lia.
    split.
    + destruct (word_before (last_char None (firstn j s))); simpl in *; congruence.
    + destruct (word_after post); simpl in *; congruence.
  - intros [run [post [E [L [F [B A]]]]]].
    eexists. split.
    + destruct (Nat.le_gt_cases j (length s)) as [Lj|Lj]; [exact Lj|].
      rewrite skipn_all2 in E by lia. destruct run; simpl in *; [lia | discriminate].
    + rewrite E. open_pattern NUMBER_RE.
      pose proof (@digits_head_word run post F) as Hw.
      pose proof (@digits_last_word (last_char None (firstn j s)) run F) as Lw.
      apply M_wordb; [unfold at_boundary; rewrite Hw, B by lia; reflexivity|].
      apply M_rep; [exact F | exact L | exact I |].
      apply M_wordb; [unfold at_boundary; rewrite Lw, A by lia; reflexivity|].
      apply M_nil.
Qed.

Lemma has_number_iff (s : str) : HasNumber s <-> HasMatch NUMBER_RE s.
Proof.
  split.
  - intros [pre [run [post [E N]]]]. exists (length pre).
    apply number_match_iff. exists run, post. subst s.
    destruct (split_at pre (run ++ post)) as [-> ->]. auto.
  - intros [j [res M]].
    destruct (proj1 (number_match_iff s j) (ex_intro _ res M)) as [run [post [E N]]].
    exists (firstn j s), run, post. split; [|exact N].
    rewrite <- E. apply text_at.
Qed.

Lemma number_at_index (pre run post : str) :
  NumberAt pre run post ->
  exists res, MatchAt NUMBER_RE (pre ++ run ++ post) (length pre) res.
Proof.
  intros N. apply number_match_iff. exists run, post.
  destruct (split_at pre (run ++ post)) as [-> ->]. auto.
Qed.

Lemma spaces_not_word_before (l p : str) :
  forallb is_space l = true ->
  word_before (last_char None p) = false ->
  word_before (last_char None (l ++ p)) = false.
Proof.
  intros F B. destruct p as [|c p].
  - rewrite app_nil_r. destruct l as [|a l]; [reflexivity|].
    destruct (@last_char_all is_space None (a :: l) F) as [x [E S]]; [discriminate|].
    rewrite E. simpl. apply space_not_word. exact S.
  - rewrite last_char_app. destruct (exists_last (l := c :: p)) as [p' [x E]];
      [discriminate|].
    rewrite E in *. rewrite last_char_snoc in *. exact B.
Qed.

Lemma spaces_not_word_after (q r : str) :
  forallb is_space r = true ->
  word_after q = false ->
  word_after (q ++ r) = false.
Proof.
  intros F A. destruct q as [|c q]; [|exact A].
  destruct r as [|a r]; [reflexivity|]. simpl in *.
  apply andb_true_iff in F. apply space_not_word. tauto.
Qed.

(** A number of the stripped text is a number of the text. *)
Lemma strip_has_number (s : str) : HasNumber (strip s) -> HasNumber s.
Proof.
  intros [p [run [q [E [L [F [B A]]]]]]].
  destruct (strip_by_decomp is_space s) as [l [r [Es [Fl Fr]]]].
  fold (strip s) in Es. rewrite E in Es.
  exists (l ++ p), run, (q ++ r). split.
  - rewrite Es. rewrite <- !app_assoc. reflexivity.
  - split; [exact L|]. split; [exact F|]. split.
    + apply spaces_not_word_before; assumption.
    + apply spaces_not_word_after; assumption.
Qed.

(** The candidate name is the cleaned line when it has no number, and
    otherwise the stripped text before its first number. *)
Lemma name_only_spec (clean : str) :
  (~ HasNumber clean /\ name_only clean = clean) \/
  (exists pre run post,
      clean = pre ++ run ++ post /\ FirstNumber pre run post /\
      name_only clean = strip pre).
Proof.
  unfold name_only. destruct (search NUMBER_RE clean) as [m|] eqn:S.
  - right. apply search_some in S. destruct S as [_ [M Least]].
    destruct (proj1 (number_match_iff clean (m_start m)) (ex_intro _ _ M))
      as [run [post [E N]]].
    exists (firstn (m_start m) clean), run, post.
    split; [rewrite <- E; apply text_at|].
    split.
    + split; [exact N|]. intros pre' run' post' E' N'.
      destruct (number_at_index N') as [res M'].
      rewrite <- E', <- E, <- text_at in M'.
      apply Least in M'. destruct M as [Lj _].
      rewrite length_firstn. lia.
    + unfold start. rewrite slice_to_nat. reflexivity.
  - left. split; [|reflexivity]. rewrite has_number_iff.
    apply search_none. exact S.
Qed.

(** No candidate name has a number in it. *)
Lemma name_only_no_number (clean : str) : ~ HasNumber (name_only clean).
Proof.
  destruct (name_only_spec clean) as [[N ->] | [pre [run [post [E [[N Least] ->]]]]]];
    [exact N|].
  intros H. apply strip_has_number in H.
  destruct H as [p [r [q [Ep [L [F [B A]]]]]]].
  assert (N' : NumberAt p r (q ++ run ++ post)).
  { split; [exact L|]. split; [exact F|]. split; [exact B|].
    destruct q as [|c q]; [|exact A].
    exfalso. destruct N as [_ [_ [Bp _]]].
    rewrite Ep, app_nil_r, last_char_app in Bp.
    rewrite digits_last_word in Bp; [discriminate | exact F | lia]. }
  specialize (Least p r (q ++ run ++ post)).
  rewrite Ep in Least. rewrite <- !app_assoc in Least.
  specialize (Least eq_refl N'). rewrite !length_app in Least. lia.
Qed.

(** C10.  No occupant name has a number of two or more digits standing
    on its own: the name comes from a line of the occupants block, and is
    that line cleaned when the cleaned line has no such number, and the
    text before the first one, stripped, otherwise. *)
Theorem parse_occupants_no_number (text : str) (o : occupant) :
  In o (parse_occupants text) ->
  ~ HasNumber (name o) /\
  exists l,
    In l (occupant_lines text (find text anchor_text)) /\
    ((~ HasNumber (clean_line l) /\ name o = clean_line l) \/
     (exists pre run post,
         clean_line l = pre ++ run ++ post /\ FirstNumber pre run post /\
         name o = strip pre)).
Proof.
  intros H. apply parse_occupants_origin in H. destruct H as [l [I [E _]]].
  rewrite E. split; [apply name_only_no_number|].
  exists l. split; [exact I | apply name_only_spec].
Qed.

End Numbers.

(** ** The charged-driver hint *)

Section Hint.

Lemma caps_line_no_newline (l : str) :
  CapsLine l -> forallb (fun c => negb (Ascii.eqb c LF)) l = true.
Proof.
  intros [c [tl [-> [U [F _]]]]]. simpl. apply andb_true_iff. split.
  - destruct (Ascii.eqb_spec c LF) as [->|]; [discriminate U | reflexivity].
  - rewrite forallb_forall in *. intros x Hx. apply F in Hx.
    destruct (Ascii.eqb_spec x LF) as [->|]; [discriminate Hx | reflexivity].
Qed.

(** A line ends at the first newline after its start. *)
Lemma upto_newline_unique (l l' r r' : str) :
  forallb (fun c => negb (Ascii.eqb c LF)) l = true ->
  forallb (fun c => negb (Ascii.eqb c LF)) l' = true ->
  l ++ LF :: r = l' ++ LF :: r' -> l = l' /\ r = r'.
Proof.
  revert l'; induction l as [|a l IH]; intros [|b l'] F F' E; simpl in *.
  - injection E as ->. auto.
  - injection E as <- _. rewrite Ascii.eqb_refl in F'. discriminate.
  - injection E as -> _. rewrite Ascii.eqb_refl in F. discriminate.
  - injection E as -> E. apply andb_true_iff in F, F'.
    destruct (IH l') as [-> ->]; tauto.
Qed.

Lemma caps_at_unique (w : str) (j : nat) (l l' : str) :
  CapsAt w j l -> CapsAt w j l' -> l = l'.
Proof.
  intros [pre [post [E [L C]]]] [pre' [post' [E' [L' C']]]].
  rewrite E in E'. apply app_same_length in E'; [|congruence].
  destruct E' as [_ E']. injection E' as E'.
  apply upto_newline_unique in E'; try apply caps_line_no_newline; tauto.
Qed.

(** [CAPS_RE] at the head of [s]. *)
Lemma caps_match_some (prev : option ascii) (s : str) (pos : nat) (res : mres) :
  match_at CAPS_RE prev s pos = Some res ->
  exists l rest,
    s = LF :: l ++ LF :: rest /\ CapsLine l /\
    res = (pos + length l + 2, Some (S pos, S pos + length l)).
Proof.
  intros M. apply match_items_sound in M.
  open_pattern CAPS_RE. invert_matches.
  match goal with H : in_range "A" "Z" ?c = true |- _ => rename c into c1 end.
  match goal with H : forallb _ ?r = true |- _ => rename r into run end.
  exists (c1 :: run). eexists. split; [reflexivity|]. split.
  - exists c1, run. repeat split; auto.
  - simpl. f_equal; [lia|]. do 2 f_equal. lia.
Qed.

Lemma caps_match_none (prev : option ascii) (s : str) (pos : nat) :
  match_at CAPS_RE prev s pos = None -> forall l, ~ CapsAt s 0 l.
Proof.
  intros M l [pre [post [E [L [c [tl [-> [U [F [Lo Hi]]]]]]]]]].
  destruct pre; [|discriminate]. simpl in E. subst s.
  unfold match_at in M. rewrite match_items_none in M. eapply M.
  open_pattern CAPS_RE.
  apply M_chr; [reflexivity|]. apply M_gopen.
  apply M_chr; [exact U|].
  apply M_rep; [exact F | exact Lo | exact Hi |].
  apply M_gclose. apply M_chr; [reflexivity|]. apply M_nil.
Qed.

Lemma findall_skip (re : regex) (text x : str) : forall prev s pos,
  findall_from re text prev (x ++ s) pos (length x) =
  findall_from re text (last_char prev x) s (pos + length x) 0.
Proof.
  induction x as [|a x IH]; intros prev s pos; simpl.
  - rewrite Nat.add_0_r. reflexivity.
  - rewrite IH. f_equal. lia.
Qed.

Lemma middle_slice (a b c : str) :
  slice (a ++ b ++ c) (Z.of_nat (length a)) (Z.of_nat (length a + length b)) = b.
Proof.
  rewrite slice_nat. rewrite app_assoc, firstn_app.
  rewrite length_app, Nat.sub_diag, firstn_O, app_nil_r.
  rewrite <- length_app, firstn_all.
  rewrite skipn_app, Nat.sub_diag, skipn_all. reflexivity.
Qed.

Lemma no_caps_in_nil (j : nat) (l : str) : ~ CapsAt [] j l.
Proof. intros [pre [post [E _]]]. destruct pre; discriminate. Qed.

Lemma caps_at_cons (c : ascii) (s : str) (j : nat) (l : str) :
  CapsAt (c :: s) (S j) l <-> CapsAt s j l.
Proof.
  unfold CapsAt. split.
  - intros [[|a pre] [post [E [L C]]]]; [discriminate|].
    injection E as -> ->. injection L as L. eauto.
  - intros [pre [post [-> [L C]]]]. exists (c :: pre), post. simpl. auto.
Qed.

(** A character with no candidate starting at it can be put in front. *)
Lemma caps_scan_shift (c : ascii) (s : str) (cands : list str) :
  (forall l, ~ CapsAt (c :: s) 0 l) ->
  CapsScan s cands -> CapsScan (c :: s) cands.
Proof.
  intros N S. inversion S as [w N0 | pre l post cands' C Least S']; subst.
  - apply scan_done. intros [|j] l Hl.
    + eapply N; eauto.
    + apply caps_at_cons in Hl. eapply N0; eauto.
  - apply (@scan_hit (c :: pre) l post cands'); auto.
    intros [|j] l' Hl.
    + exfalso. eapply N; eauto.
    + apply caps_at_cons in Hl. apply Least in Hl. simpl. lia.
Qed.

(** What [findall] returns for [CAPS_RE] are the candidates of the text. *)
Lemma findall_caps_scan (text : str) : forall n s done prev,
  length s <= n -> text = done ++ s ->
  CapsScan s (findall_from CAPS_RE text prev s (length done) 0).
Proof.
  induction n as [|n IH]; intros s done prev L E.
  - destruct s; [|simpl in L; lia]. simpl. apply scan_done. apply no_caps_in_nil.
  - destruct s as [|c s].
    + simpl. apply scan_done. apply no_caps_in_nil.
    + cbn [findall_from].
      destruct (match_at CAPS_RE prev (c :: s) (length done)) as [res|] eqn:M.
      * apply caps_match_some in M. destruct M as [l [rest [Es [C ->]]]].
        injection Es as -> ->. cbn [fst].
        assert (Sk : findall_from CAPS_RE text (Some LF) (l ++ LF :: rest)
                       (S (length done)) (length done + length l + 2 - length done - 1)
                     = findall_from CAPS_RE text (last_char (Some LF) (l ++ [LF])) rest
                         (length (done ++ LF :: l ++ [LF])) 0).
        { replace (l ++ LF :: rest) with ((l ++ [LF]) ++ rest)
            by (rewrite <- app_assoc; reflexivity).
          replace (length done + length l + 2 - length done - 1)
            with (length (l ++ [LF])) by (rewrite length_app; simpl; lia).
          rewrite findall_skip. f_equal.
          rewrite !length_app. simpl. rewrite length_app. simpl. lia. }
        assert (G : group1 (mk_match text (length done)
                              (length done + length l + 2,
                               Some (S (length done), S (length done) + length l))) = l).
        { unfold group1, mk_match. cbn [m_span1 m_string snd].
          replace text with ((done ++ [LF]) ++ l ++ LF :: rest)
            by (rewrite E, <- app_assoc; reflexivity).
          replace (S (length done)) with (length (done ++ [LF]))
            by (rewrite length_app; simpl; lia).
          apply middle_slice. }
        rewrite Sk, G.
        apply (@scan_hit [] l rest); [exact C | intros; simpl; lia |].
        apply IH.
        -- simpl in L. rewrite length_app in L. simpl in L. lia.
        -- rewrite E. rewrite <- app_assoc. simpl. rewrite <- app_assoc. reflexivity.
      * apply caps_scan_shift; [apply (caps_match_none _ _ M)|].
        replace (S (length done)) with (length (done ++ [c]))
          by (rewrite length_app; simpl; lia).
        apply IH; [simpl in L; lia|].
        rewrite E, <- app_assoc. reflexivity.
Qed.

(** The candidates of a text are determined by it. *)
Lemma caps_scan_unique (w : str) (c1 c2 : list str) :
  CapsScan w c1 -> CapsScan w c2 -> c1 = c2.
Proof.
  intros S1. revert c2. induction S1 as [w N | pre l post cands C Least S IH];
    intros c2 S2.
  - inversion S2; subst; [reflexivity|].
    exfalso. eapply N. exists pre, post. eauto.
  - inversion S2 as [w' N | pre' l' post' cands' C' Least' S' E]; subst.
    + exfalso. eapply N. exists pre, post. eauto.
    + assert (Lp : length pre' = length pre).
      { apply Nat.le_antisymm.
        - rewrite E in Least'. apply (Least' _ l). exists pre, post. auto.
        - apply (Least _ l'). rewrite <- E. exists pre', post'. auto. }
      apply app_same_length in E; [|exact Lp]. destruct E as [-> E].
      injection E as E.
      apply upto_newline_unique in E; try apply caps_line_no_newline; auto.
      destruct E as [-> ->]. f_equal. apply IH. exact S'.
Qed.

Lemma first_hint_spec (caps : list str) : FirstQualifying caps (first_hint caps).
Proof.
  induction caps as [|c caps IH]; cbn [first_hint].
  - left. split; [reflexivity | constructor].
  - fold (normalize c). destruct (word_count_ok (normalize c)) eqn:W.
    + right. exists [], c, caps. repeat split; auto.
    + destruct IH as [[-> F] | [before [c' [after [-> [F [W' ->]]]]]]].
      * left. split; [reflexivity | constructor; auto].
      * right. exists (c :: before), c', after. repeat split; auto.
Qed.

Lemma charge_snippet_window (text : str) (i : nat) :
  find text (lit "136 Charge") = Z.of_nat i ->
  charge_snippet text = window text i.
Proof.
  intros E. unfold charge_snippet, window. rewrite E.
  replace (Z.max 0 (Z.of_nat i - 600)) with (Z.of_nat (i - 600)) by lia.
  replace (Z.of_nat i + 1500)%Z with (Z.of_nat (i + 1500)) by lia.
  apply slice_nat.
Qed.

(** C1, as the code has it.  Without "136 Charge" there is no hint.
    Otherwise, with the first occurrence at index [i], the candidates are
    those of the window from 600 characters before [i] to 1500 after it,
    taken left to right without overlap, and the hint is the first
    candidate that has two to five words, normalised. *)
Theorem charged_driver_hint_spec (text : str) :
  (~ Substr (lit "136 Charge") text /\ find_charged_driver_hint text = None) \/
  (exists i cands,
      OccursAt (lit "136 Charge") text i /\
      (forall j, OccursAt (lit "136 Charge") text j -> i <= j) /\
      CapsScan (window text i) cands /\
      (forall cands', CapsScan (window text i) cands' -> cands' = cands) /\
      FirstQualifying cands (find_charged_driver_hint text)).
Proof.
  unfold find_charged_driver_hint.
  destruct (str_in (lit "136 Charge") text) eqn:Hin; cbn [negb].
  - right. apply str_in_iff in Hin.
    destruct (find_present Hin) as [i [E [O Least]]].
    rewrite (@charge_snippet_window text i E).
    exists i, (findall CAPS_RE (window text i)).
    assert (S : CapsScan (window text i) (findall CAPS_RE (window text i))).
    { unfold findall.
      apply (@findall_caps_scan (window text i) (length (window text i))
               (window text i) [] None); auto. }
    split; [exact O|]. split; [exact Least|]. split; [exact S|].
    split; [intros c' S'; eapply caps_scan_unique; eauto|].
    apply first_hint_spec.
  - left. split; [|reflexivity]. rewrite <- str_in_iff. congruence.
Qed.

(** C1, as worded.  The hint and its wording in the specification part on
    three kinds of window: a qualifying line right after another capitalised line, a
    line of 61 characters, and a line that starts with a hyphen. *)
Lemma hint_differs_from_wording :
  (find_charged_driver_hint adjacent_lines_text = None /\
   worded_hint adjacent_lines_text = Some (lit "JOHN SMITH")) /\
  (find_charged_driver_hint long_line_text = Some long_line /\
   length long_line = 61 /\
   worded_hint long_line_text = None) /\
  (find_charged_driver_hint hyphen_line_text = None /\
   worded_hint hyphen_line_text = Some (lit "-JOHN SMITH")).
Proof. repeat split; vm_compute; reflexivity. Qed.

(** The hint of a window with two capitalised lines apart. *)
Example hint_of_separate_lines :
  find_charged_driver_hint separate_lines_text = Some (lit "JOHN SMITH").
Proof. vm_compute. reflexivity. Qed.

End Hint.

(** ** Whole documents *)

Section Scenarios.

Lemma search_no_match (re : regex) (text : str) :
  ~ HasMatch re text -> search re text = None.
Proof. apply search_none. Qed.

(** C8.  A document with no field label, no occupants anchor, no
    commercial keyword and no fatality count yields the placeholder row
    alone, with empty fields and both flags "No". *)
Theorem unrecognised_text_placeholder_row (text : str) :
  ~ HasMatch CASE_RE text ->
  ~ HasMatch DEPT_RE text ->
  ~ HasMatch DATE_RE text ->
  ~ Substr anchor_text text ->
  (forall k, In k commercial_keys -> ~ Substr (wide k) (upper text)) ->
  ~ FatalCount text ->
  parse_document text =
  [ {| CaseNumber := []; PoliceDept := []; DateOfCrash := [];
       Name := lit "(no occupants parsed)"; NotAtFault := [];
       CommercialVehicleFlag := lit "No"; FatalFlag := lit "No" |} ].
Proof.
  intros Hc Hd Ht Ha Hk Hf.
  rewrite (parse_document_placeholder _ (parse_occupants_absent Ha)).
  rewrite (search_no_match Hc), (search_no_match Hd), (search_no_match Ht).
  assert (C : flag_commercial text = false).
  { destruct (flag_commercial text) eqn:E; [|reflexivity].
    apply flag_commercial_true in E. destruct E as [k [I S]].
    exfalso. apply (Hk k I S). }
  assert (F : py_bool (flag_fatal text) = false).
  { destruct (py_bool (flag_fatal text)) eqn:E; [|reflexivity].
    apply flag_fatal_true in E. tauto. }
  rewrite C, F. reflexivity.
Qed.

(** C9.  The scenario document, which has no "136 Charge", yields one
    row: the three fields, JOHN SMITH, not at fault, no flag. *)
Theorem scenario_one_row :
  str_in (lit "136 Charge") scenario_text = false /\
  parse_document scenario_text =
  [ {| CaseNumber := lit "ABC123"; PoliceDept := lit "TEST CITY PD";
       DateOfCrash := lit "01/02/23"; Name := lit "JOHN SMITH";
       NotAtFault := lit "Yes";
       CommercialVehicleFlag := lit "No"; FatalFlag := lit "No" |} ].
Proof. split; vm_compute; reflexivity. Qed.

(** A document with a charged driver: the occupant named by the hint is
    labelled "No", the other "Yes". *)
Example charged_driver_rows :
  find_charged_driver_hint charged_text = Some (lit "JOHN SMITH") /\
  map (fun r => (Name r, NotAtFault r)) (parse_document charged_text) =
  [ (lit "JOHN SMITH", lit "No"); (lit "JANE DOE", lit "Yes") ].
Proof. split; vm_compute; reflexivity. Qed.

Example block_occupants :
  map name (parse_occupants block_text) =
  [ lit "JOHN SMITH"; lit "MARY ANN LEE"; lit "PAT O'NEIL 12A34 X" ].
Proof. vm_compute. reflexivity. Qed.

Example usdot_is_commercial :
  flag_commercial (lit "carrier no.: usdot 1234567") = true.
Proof. vm_compute. reflexivity. Qed.

End Scenarios.

(** ** The theorems at concrete documents *)

Section Witnesses.

Lemma scenario_occupants :
  parse_occupants scenario_text = [ {| name := lit "JOHN SMITH" |} ].
Proof. vm_compute. reflexivity. Qed.

Lemma plain_text_no_anchor : ~ Substr anchor_text plain_text.
Proof. rewrite <- str_in_iff. vm_compute. discriminate. Qed.

Lemma scenario_john : In {| name := lit "JOHN SMITH" |} (parse_occupants scenario_text).
Proof. rewrite scenario_occupants. left. reflexivity. Qed.

Lemma parse_occupants_word_count_witness :
  In {| name := lit "JOHN SMITH" |} (parse_occupants scenario_text) /\
  2 <= length (split (lit "JOHN SMITH")) <= 5.
Proof.
  split; [exact scenario_john|].
  exact (@parse_occupants_word_count scenario_text _ scenario_john).
Defined.

Lemma parse_occupants_no_number_witness :
  In {| name := lit "JOHN SMITH" |} (parse_occupants scenario_text) /\
  (~ HasNumber (lit "JOHN SMITH") /\
   exists l,
     In l (occupant_lines scenario_text (find scenario_text anchor_text)) /\
     ((~ HasNumber (clean_line l) /\ lit "JOHN SMITH" = clean_line l) \/
      (exists pre run post,
          clean_line l = pre ++ run ++ post /\ FirstNumber pre run post /\
          lit "JOHN SMITH" = strip pre))).
Proof.
  split; [exact scenario_john|].
  exact (@parse_occupants_no_number scenario_text _ scenario_john).
Defined.

(** The document with a charged driver has two occupants, and the hint
    names the first: its rows read "No" and "Yes". *)
Lemma charged_has_occupants : parse_occupants charged_text <> [].
Proof. vm_compute. discriminate. Qed.

Lemma not_at_fault_rows_witness :
  parse_occupants charged_text <> [] /\
  (Forall2 (fun o r =>
              Name r = name o /\
              naf_label (find_charged_driver_hint charged_text) (name o) (NotAtFault r))
           (parse_occupants charged_text) (parse_document charged_text) /\
   (find_charged_driver_hint charged_text = None ->
    Forall (fun r => NotAtFault r = lit "Yes") (parse_document charged_text))).
Proof.
  split; [exact charged_has_occupants|].
  exact (@not_at_fault_rows charged_text charged_has_occupants).
Defined.

Lemma no_anchor_placeholder_row_witness :
  ~ Substr anchor_text plain_text /\
  (parse_occupants plain_text = [] /\
   exists r,
     parse_document plain_text = [r] /\
     Name r = lit "(no occupants parsed)" /\
     NotAtFault r = [] /\
     NotAtFault r <> lit "Yes" /\ NotAtFault r <> lit "No").
Proof.
  split; [exact plain_text_no_anchor|].
  exact (@no_anchor_placeholder_row plain_text plain_text_no_anchor).
Defined.

Lemma plain_text_no_keyword (k : str) :
  In k commercial_keys -> ~ Substr (wide k) (upper plain_text).
Proof.
  intros I. rewrite <- ustr_in_iff. unfold commercial_keys in I. simpl in I.
  repeat (destruct I as [<- | I]; [vm_compute; discriminate|]). contradiction.
Qed.

Lemma plain_text_no_fatal_count : ~ FatalCount plain_text.
Proof.
  intros H. apply fatal_count_matches in H. revert H.
  apply search_none. vm_compute. reflexivity.
Qed.

Lemma unrecognised_text_placeholder_row_witness :
  parse_document plain_text =
  [ {| CaseNumber := []; PoliceDept := []; DateOfCrash := [];
       Name := lit "(no occupants parsed)"; NotAtFault := [];
       CommercialVehicleFlag := lit "No"; FatalFlag := lit "No" |} ].
Proof.
  apply (@unrecognised_text_placeholder_row plain_text).
  - apply search_none. vm_compute. reflexivity.
  - apply search_none. vm_compute. reflexivity.
  - apply search_none. vm_compute. reflexivity.
  - exact plain_text_no_anchor.
  - exact plain_text_no_keyword.
  - exact plain_text_no_fatal_count.
Defined.

End Witnesses.

(** ** Rows of a document *)

Section Rows.

#[local] Arguments firstn : simpl never.

Lemma parse_occupants_length (text : str) : length (parse_occupants text) <= 30.
Proof.
  destruct (substr_dec anchor_text text) as [P|N].
  - rewrite (parse_occupants_present P). rewrite length_firstn. lia.
  - rewrite (parse_occupants_absent N). simpl. lia.
Qed.

(** A document never gives no row, nor more than 30. *)
Lemma row_count (text : str) : 1 <= length (parse_document text) <= 30.
Proof.
  pose proof (parse_occupants_length text) as L.
  destruct (parse_occupants text) as [|o l] eqn:E.
  - rewrite (parse_document_placeholder _ E). simpl. lia.
  - assert (N : parse_occupants text <> []) by congruence.
    rewrite (parse_document_rows _ N), !length_map, E. simpl in *. lia.
Qed.

(** X1.  A document yields one row per occupant and one row when it has
    no occupant: never none, never more than 30. *)
Theorem parse_document_row_count (text : str) :
  length (parse_document text) = Nat.max 1 (length (parse_occupants text)) /\
  1 <= length (parse_document text) <= 30.
Proof.
  pose proof (parse_occupants_length text) as L.
  destruct (parse_occupants text) as [|o l] eqn:E.
  - rewrite (parse_document_placeholder _ E). simpl. lia.
  - assert (N : parse_occupants text <> []) by congruence.
    rewrite (parse_document_rows _ N), !length_map, E. simpl in *. lia.
Qed.

Lemma yes_no_cases (b : bool) : yes_no b = lit "Yes" \/ yes_no b = lit "No".
Proof. destruct b; auto. Qed.

(** The rows of a document, whichever branch built them. *)
Lemma parse_document_row (text : str) (r : row) :
  In r (parse_document text) ->
  CaseNumber r = group1_or_empty (search CASE_RE text) /\
  PoliceDept r = match search DEPT_RE text with
                 | Some m => strip (group1 m)
                 | None => []
                 end /\
  DateOfCrash r = group1_or_empty (search DATE_RE text) /\
  CommercialVehicleFlag r = yes_no (flag_commercial text) /\
  FatalFlag r = yes_no (py_bool (flag_fatal text)) /\
  ((parse_occupants text = [] /\ Name r = lit "(no occupants parsed)" /\
    NotAtFault r = []) \/
   (In {| name := Name r |} (parse_occupants text) /\
    NotAtFault r =
    not_at_fault (upper (or_empty (find_charged_driver_hint text))) (Name r))).
Proof.
  intros H. destruct (parse_occupants text) as [|o l] eqn:E.
  - rewrite (parse_document_placeholder _ E) in H.
    destruct H as [<- | []]. simpl. repeat split; auto.
  - assert (N : parse_occupants text <> []) by congruence.
    rewrite (parse_document_rows _ N) in H. apply in_map_iff in H.
    destruct H as [o' [<- I]]. simpl. do 5 (split; [reflexivity|]).
    right. split; [|reflexivity]. rewrite E in I. destruct o'; exact I.
Qed.

(** X2.  The rows of one document agree on the case number, the
    department, the date and the two flags, and each flag reads "Yes" or
    "No". *)
Theorem document_fields_shared (text : str) (r1 r2 : row) :
  In r1 (parse_document text) -> In r2 (parse_document text) ->
  CaseNumber r1 = CaseNumber r2 /\
  PoliceDept r1 = PoliceDept r2 /\
  DateOfCrash r1 = DateOfCrash r2 /\
  CommercialVehicleFlag r1 = CommercialVehicleFlag r2 /\
  FatalFlag r1 = FatalFlag r2 /\
  (CommercialVehicleFlag r1 = lit "Yes" \/ CommercialVehicleFlag r1 = lit "No") /\
  (FatalFlag r1 = lit "Yes" \/ FatalFlag r1 = lit "No").
Proof.
  intros H1 H2. apply parse_document_row in H1, H2.
  destruct H1 as [A1 [B1 [C1 [D1 [E1 _]]]]].
  destruct H2 as [A2 [B2 [C2 [D2 [E2 _]]]]].
  repeat split; try congruence.
  - rewrite D1. apply yes_no_cases.
  - rewrite E1. apply yes_no_cases.
Qed.

(** X3.  The not-at-fault field of a row is empty exactly when the
    document has no occupant; otherwise it reads "Yes" or "No" and the row
    carries the name of an occupant. *)
Theorem not_at_fault_empty_iff (text : str) (r : row) :
  In r (parse_document text) ->
  (NotAtFault r = [] <-> parse_occupants text = []) /\
  (parse_occupants text <> [] ->
   (NotAtFault r = lit "Yes" \/ NotAtFault r = lit "No") /\
   In {| name := Name r |} (parse_occupants text)).
Proof.
  intros H. apply parse_document_row in H.
  destruct H as [_ [_ [_ [_ [_ [[E [_ N]] | [I N]]]]]]].
  - split; [tauto | congruence].
  - assert (L : NotAtFault r = lit "Yes" \/ NotAtFault r = lit "No").
    { rewrite N. unfold not_at_fault.
      destruct (truthy _ && ustr_in _ _); auto. }
    split.
    + split; intros E.
      * destruct L as [L | L]; rewrite L in E; discriminate.
      * rewrite E in I. contradiction.
    + intros _. auto.
Qed.

(** X7.  Text around a flagged text never clears the commercial flag. *)
Theorem flag_commercial_embedded (before text after : str) :
  flag_commercial text = true ->
  flag_commercial (before ++ text ++ after) = true.
Proof.
  rewrite !flag_commercial_true. intros [k [I [pre [post E]]]].
  exists k. split; [exact I|].
  exists (upper before ++ pre), (post ++ upper after).
  rewrite !upper_app, E, <- !app_assoc. reflexivity.
Qed.

End Rows.

(** ** What the parsers read of the text *)

Section Windows.

#[local] Opaque block_size.

Lemma find_first (s sub : str) (i : nat) :
  OccursAt sub s i -> (forall j, OccursAt sub s j -> i <= j) ->
  find s sub = Z.of_nat i.
Proof.
  intros O Least. destruct (find_spec s sub) as [[_ N] | [k [E [Ok Lk]]]].
  - exfalso. apply N. destruct O as [pre [post [E _]]]. exists pre, post. exact E.
  - rewrite E. f_equal. apply Nat.le_antisymm; auto.
Qed.

Lemma find_at_head (sub rest : str) : find (sub ++ rest) sub = 0%Z.
Proof.
  apply (@find_first (sub ++ rest) sub 0).
  - exists [], rest. auto.
  - intros; lia.
Qed.

Lemma block_size_value : Z.of_nat block_size = 8000%Z.
Proof. reflexivity. Qed.

(** The block of a text with the anchor at [i] starts with the anchor. *)
Lemma occupants_block_head (text : str) (i : nat) :
  OccursAt anchor_text text i ->
  exists rest, occupants_block text i = anchor_text ++ rest /\
               length (occupants_block text i) <= block_size.
Proof.
  intros [pre [post [-> L]]]. unfold occupants_block. subst i.
  rewrite firstn_app_2, skipn_app, Nat.sub_diag, skipn_all, !skipn_O, !app_nil_l.
  assert (B : 30 <= block_size) by (pose proof block_size_value; lia).
  exists (firstn (block_size - 30) post). split.
  - rewrite firstn_app. change (length anchor_text) with 30.
    rewrite firstn_all2 by (change (length anchor_text) with 30; lia).
    reflexivity.
  - rewrite length_firstn. lia.
Qed.

(** X4.  The occupants depend only on the block of 8000 characters that
    starts at the first anchor: what comes before the anchor or after the
    block changes nothing. *)
Theorem parse_occupants_block_only (text : str) (i : nat) :
  OccursAt anchor_text text i ->
  (forall j, OccursAt anchor_text text j -> i <= j) ->
  parse_occupants text = parse_occupants (occupants_block text i).
Proof.
  intros O Least. destruct (occupants_block_head O) as [rest [E Lb]].
  unfold parse_occupants. fold anchor_text.
  assert (F0 : find (occupants_block text i) anchor_text = 0%Z)
    by (rewrite E; apply find_at_head).
  rewrite (find_first O Least), F0.
  destruct (Z.eqb_spec (Z.of_nat i) (-1)); [lia|]. simpl (0 =? -1)%Z. cbv iota.
  replace (occupant_results (occupants_block text i) 0)
    with (occupant_results text (Z.of_nat i)); [reflexivity|].
  unfold occupant_results, occupant_lines.
  replace (Z.of_nat i + 8000)%Z with (Z.of_nat (i + block_size))
    by (pose proof block_size_value; lia).
  replace (0 + 8000)%Z with (Z.of_nat block_size) by (pose proof block_size_value; lia).
  change 0%Z with (Z.of_nat 0). rewrite !slice_nat. simpl skipn.
  fold (occupants_block text i).
  rewrite (firstn_all2 (n := block_size)) by exact Lb. reflexivity.
Qed.

Lemma window_shape (pre post : str) :
  window (pre ++ lit "136 Charge" ++ post) (length pre) =
  skipn (length pre - 600) pre ++ lit "136 Charge" ++ firstn 1490 post.
Proof.
  unfold window. rewrite firstn_app_2, skipn_app.
  replace (length pre - 600 - length pre) with 0 by lia. rewrite skipn_O.
  f_equal.
Qed.

(** X5.  The hint depends only on the window around the first "136
    Charge": text more than 600 characters before it or 1500 after its
    start changes nothing. *)
Theorem hint_window_only (text : str) (i : nat) :
  OccursAt (lit "136 Charge") text i ->
  (forall j, OccursAt (lit "136 Charge") text j -> i <= j) ->
  find_charged_driver_hint text = find_charged_driver_hint (window text i).
Proof.
  intros O Least. pose proof O as [pre [post [E L]]]. subst i.
  assert (In1 : str_in (lit "136 Charge") text = true).
  { apply str_in_iff. exists pre, post. exact E. }
  pose proof (window_shape pre post) as W. rewrite <- E in W.
  set (w := window text (length pre)) in *.
  set (head := skipn (length pre - 600) pre) in *.
  assert (Lh : length head = Nat.min (length pre) 600).
  { unfold head. rewrite length_skipn. lia. }
  assert (Ow : OccursAt (lit "136 Charge") w (length head)).
  { exists head, (firstn 1490 post). auto. }
  assert (Lw : forall j, OccursAt (lit "136 Charge") w j -> length head <= j).
  { intros j [p [q [Ew Lj]]].
    assert (Ot : OccursAt (lit "136 Charge") text ((length pre - 600) + j)).
    { exists (firstn (length pre - 600) (firstn (length pre + 1500) text) ++ p),
             (q ++ skipn (length pre + 1500) text).
      split.
      - rewrite <- (firstn_skipn (length pre + 1500) text) at 1.
        rewrite <- (firstn_skipn (length pre - 600) (firstn (length pre + 1500) text)) at 1.
        fold (window text (length pre)). fold w. rewrite Ew.
        rewrite <- !app_assoc. reflexivity.
      - rewrite length_app, length_firstn, length_firstn, Lj.
        rewrite E, !length_app. change (length (lit "136 Charge")) with 10. lia. }
    apply Least in Ot. lia. }
  assert (In2 : str_in (lit "136 Charge") w = true).
  { apply str_in_iff. destruct Ow as [p [q [Ew _]]]. exists p, q. exact Ew. }
  unfold find_charged_driver_hint. rewrite In1, In2. cbn [negb].
  rewrite (@charge_snippet_window text (length pre) (find_first O Least)).
  rewrite (@charge_snippet_window w (length head) (find_first Ow Lw)).
  fold w. f_equal. f_equal. unfold window at 1.
  replace (length head - 600) with 0 by lia. simpl skipn.
  rewrite firstn_all2; [reflexivity|].
  rewrite W, !length_app, length_firstn.
  change (length (lit "136 Charge")) with 10. lia.
Qed.

End Windows.

(** ** The alphabet of the hint *)

Section HintAlphabet.

Lemma caps_no_case (c : ascii) : cls_caps c = true -> upper_point c = [code c].
Proof.
  destruct c as [[] [] [] [] [] [] [] []]; vm_compute; congruence.
Qed.

(** Upper-casing changes nothing in a text whose characters it leaves alone. *)
Lemma upper_plain (s : str) :
  (forall c, In c s -> upper_point c = [code c]) -> upper s = wide s.
Proof.
  induction s as [|c s IH]; intros H; [reflexivity|].
  change (upper (c :: s)) with (upper_point c ++ upper s).
  rewrite (H c) by (simpl; auto). rewrite IH; [reflexivity|].
  intros a Ia. apply H. simpl. auto.
Qed.

Lemma caps_scan_lines (w : str) (cands : list str) :
  CapsScan w cands -> Forall CapsLine cands.
Proof. induction 1; constructor; auto. Qed.

Lemma caps_line_alphabet (l : str) :
  CapsLine l -> forallb cls_caps l = true /\ length l <= 61.
Proof.
  intros [c [tl [-> [U [F [_ L]]]]]]. simpl. split; [|lia].
  rewrite F, andb_true_r. unfold cls_caps. rewrite U. reflexivity.
Qed.

Lemma first_hint_origin (caps : list str) (h : str) :
  first_hint caps = Some h -> exists c, In c caps /\ h = normalize c.
Proof.
  induction caps as [|c caps IH]; cbn [first_hint]; [discriminate|].
  fold (normalize c). destruct (word_count_ok (normalize c)).
  - intros E. injection E as <-. exists c. simpl. auto.
  - intros E. destruct (IH E) as [c' [I ->]]. exists c'. simpl. auto.
Qed.

Lemma flush_forall (P : str -> Prop) (cur : str) :
  P cur -> Forall P (flush cur).
Proof. destruct cur; simpl; auto. Qed.

(** The words of a text are made of its characters. *)
Lemma split_go_alphabet (p : ascii -> bool) (s : str) : forall cur,
  forallb p cur = true -> forallb p s = true ->
  Forall (fun t => forallb p t = true) (split_go cur s).
Proof.
  induction s as [|c s IH]; intros cur Fc Fs; simpl.
  - apply flush_forall. exact Fc.
  - simpl in Fs. apply andb_true_iff in Fs. destruct Fs as [Pc Fs].
    destruct (is_space c).
    + apply Forall_app. split; [apply flush_forall; exact Fc | apply IH; auto].
    + apply IH; auto. rewrite forallb_app, Fc. simpl. rewrite Pc. reflexivity.
Qed.

Lemma join_alphabet (p : ascii -> bool) (sep : str) (parts : list str) :
  forallb p sep = true ->
  Forall (fun t => forallb p t = true) parts ->
  forallb p (join sep parts) = true.
Proof.
  intros Fs. induction 1 as [|t parts Ft _ IH]; [reflexivity|].
  destruct parts as [|t' parts]; [exact Ft|].
  change (join sep (t :: t' :: parts)) with (t ++ sep ++ join sep (t' :: parts)).
  rewrite !forallb_app, Ft, Fs, IH. reflexivity.
Qed.

Lemma flush_measure (cur : str) :
  length (List.concat (flush cur)) + length (flush cur) <= length cur + 1.
Proof. destruct cur; simpl; [lia|]. rewrite app_nil_r. lia. Qed.

(** The words and one separator each fit in the text. *)
Lemma split_go_measure (s : str) : forall cur,
  length (List.concat (split_go cur s)) + length (split_go cur s)
  <= length cur + length s + 1.
Proof.
  induction s as [|c s IH]; intros cur; simpl.
  - pose proof (flush_measure cur). lia.
  - destruct (is_space c).
    + rewrite concat_app, !length_app.
      pose proof (flush_measure cur). specialize (IH []). simpl in IH. lia.
    + specialize (IH (cur ++ [c])). rewrite length_app in IH. simpl in IH. lia.
Qed.

Lemma join_length (x : ascii) (parts : list str) :
  length (join [x] parts) + 1 <= length (List.concat parts) + length parts + 1
  /\ (parts <> [] -> length (join [x] parts) + 1 = length (List.concat parts) + length parts).
Proof.
  induction parts as [|t parts [IH1 IH2]]; simpl; [split; [lia | congruence]|].
  destruct parts as [|t' parts].
  - simpl. rewrite app_nil_r. split; intros; lia.
  - assert (N : t' :: parts <> []) by discriminate. specialize (IH2 N).
    change (join [x] (t' :: parts)) with (join [x] (t' :: parts)) in *.
    rewrite !length_app in *. simpl in *. rewrite !length_app in *. split; intros; lia.
Qed.

(** Normalising never lengthens a text. *)
Lemma normalize_length (s : str) : length (normalize s) <= length s.
Proof.
  unfold normalize, split. change (lit " ") with [" "%char].
  pose proof (split_go_measure s []) as M. simpl in M.
  destruct (join_length " " (split_go [] s)) as [J1 J2].
  destruct (split_go [] s) as [|t parts] eqn:E.
  - simpl. lia.
  - assert (N : t :: parts <> []) by discriminate. specialize (J2 N). lia.
Qed.

Lemma findall_caps_lines (w c : str) : In c (findall CAPS_RE w) -> CapsLine c.
Proof.
  intros I.
  assert (S : CapsScan w (findall CAPS_RE w)).
  { unfold findall.
    apply (@findall_caps_scan w (length w) w [] None); auto. }
  apply caps_scan_lines in S. rewrite Forall_forall in S. auto.
Qed.

(** X6.  A hint is made of uppercase letters, spaces, hyphens and
    apostrophes only, so upper-casing it changes nothing, and it has at
    most 61 characters. *)
Theorem hint_alphabet (text h : str) :
  find_charged_driver_hint text = Some h ->
  forallb cls_caps h = true /\ upper h = wide h /\ length h <= 61.
Proof.
  unfold find_charged_driver_hint.
  destruct (negb (str_in (lit "136 Charge") text)); [discriminate|].
  intros H. apply first_hint_origin in H. destruct H as [c [I ->]].
  apply findall_caps_lines, caps_line_alphabet in I. destruct I as [F L].
  assert (Fh : forallb cls_caps (normalize c) = true).
  { unfold normalize. apply join_alphabet; [reflexivity|].
    apply split_go_alphabet; [reflexivity | exact F]. }
  split; [exact Fh|]. split.
  - apply upper_plain. intros a Ia. apply caps_no_case.
    rewrite forallb_forall in Fh. auto.
  - pose proof (normalize_length c). lia.
Qed.

End HintAlphabet.

(** ** Where an occupant comes from *)

Section Provenance.

Lemma occupants_step_origin (lines : list str) : forall acc o,
  In o (fold_left occupants_step lines acc) ->
  In o acc \/
  exists l, In l lines /\
            str_in (lit "Names & Addresses") l = false /\
            str_in (lit "If Deceased") l = false /\
            found (rmatch_at0 NUMERIC_LINE_RE l) = false /\
            found (search TWO_WORDS_RE l) = true /\
            name o = name_only (clean_line l).
Proof.
  induction lines as [|l lines IH]; intros acc o H; simpl in H; [auto|].
  apply IH in H. destruct H as [H | [l' [I H]]].
  - unfold occupants_step in H.
    destruct (str_in (lit "Names & Addresses") l) eqn:E1; cbn [orb] in H; auto.
    destruct (str_in (lit "If Deceased") l) eqn:E2; cbn [orb] in H; auto.
    destruct (found (rmatch_at0 NUMERIC_LINE_RE l)) eqn:E3; auto.
    destruct (found (search TWO_WORDS_RE l)) eqn:E4; auto.
    destruct (word_count_ok (name_only (clean_line l))); auto.
    apply in_app_or in H. destruct H as [H | [<- | []]]; auto.
    right. exists l. simpl. auto 10.
  - right. exists l'. simpl. tauto.
Qed.

Lemma numeric_line_found (l : str) :
  l <> [] -> forallb cls_numeric l = true ->
  found (rmatch_at0 NUMERIC_LINE_RE l) = true.
Proof.
  intros N F. unfold rmatch_at0, match_at.
  destruct (@match_items_complete false (items NUMERIC_LINE_RE) None None l 0 (length l, None))
    as [res M].
  - open_pattern NUMERIC_LINE_RE.
    apply M_bos; [reflexivity|].
    rewrite <- (app_nil_r l) at 1.
    apply M_rep; [exact F | destruct l; simpl; [congruence | lia] | exact I |].
    apply M_eos; [reflexivity|]. simpl. apply M_nil.
  - change (ignorecase NUMERIC_LINE_RE) with false. rewrite M. reflexivity.
Qed.

Lemma two_words_match (l : str) : HasMatch TWO_WORDS_RE l -> TwoWords l.
Proof.
  intros [j [res [Lj M]]]. pose proof (text_at l j) as E.
  remember (skipn j l) as s eqn:Es. clear Es.
  remember (firstn j l) as pre eqn:Ep. clear Ep.
  open_pattern TWO_WORDS_RE. invert_matches.
  match goal with
  | H1 : forallb (cmatch false cls_letter) ?r = true,
    H2 : forallb (cmatch false is_space) ?w = true,
    H3 : cls_letter ?c = true |- _ =>
      exists pre, r, w, c; eexists; split; [reflexivity|]; auto 10
  end.
Qed.

Lemma occupant_lines_nonempty (text : str) (a : Z) (l : str) :
  In l (occupant_lines text a) -> l <> [].
Proof.
  unfold occupant_lines. intros H. apply in_map_iff in H.
  destruct H as [l0 [<- I]]. apply filter_In in I. destruct I as [_ T].
  destruct (strip l0); [discriminate | discriminate].
Qed.

(** X10.  Every occupant is cut from a non-empty line of the block that
    contains neither "Names & Addresses" nor "If Deceased", is not made of
    digits, hyphens and spaces only, and has two letters, whitespace and a
    letter in a row. *)
Theorem occupant_provenance (text : str) (o : occupant) :
  In o (parse_occupants text) ->
  exists l,
    In l (occupant_lines text (find text anchor_text)) /\
    l <> [] /\
    ~ Substr (lit "Names & Addresses") l /\
    ~ Substr (lit "If Deceased") l /\
    forallb cls_numeric l = false /\
    TwoWords l /\
    name o = name_only (clean_line l).
Proof.
  intros H. destruct (substr_dec anchor_text text) as [P|N].
  - rewrite (parse_occupants_present P) in H. apply firstn_incl in H.
    pose proof (@dedup_loop_inv (occupant_results text (find text anchor_text))
                  (occupant_results text (find text anchor_text)) [] ([], [])) as Inv.
    destruct (fold_left dedup_step _ _) as [dedup seen]. simpl in H.
    destruct Inv as [_ [_ [I3 _]]].
    + reflexivity.
    + simpl. repeat split; auto; try constructor; try contradiction.
    + apply I3 in H. unfold occupant_results in H.
      apply occupants_step_origin in H.
      destruct H as [[] | [l [I [E1 [E2 [E3 [E4 E5]]]]]]].
      exists l. pose proof (@occupant_lines_nonempty _ _ _ I) as Ne.
      split; [exact I|]. split; [exact Ne|].
      split; [rewrite <- str_in_iff; congruence|].
      split; [rewrite <- str_in_iff; congruence|].
      split.
      * destruct (forallb cls_numeric l) eqn:F; [|reflexivity].
        rewrite (numeric_line_found Ne F) in E3. discriminate.
      * split; [|exact E5]. apply two_words_match, search_found. exact E4.
  - rewrite (parse_occupants_absent N) in H. contradiction.
Qed.

End Provenance.

(** ** The captured fields *)



Section Fields.










End Fields.

(** ** Blank text, extraction and batches *)

Section Blank.

Lemma blank_no_case (c : ascii) :
  is_space c = true ->
  upper_char c = Some c /\ lower_char c = c /\ upper_point c = [code c].
Proof.
  destruct c as [[] [] [] [] [] [] [] []]; vm_compute; intros; try discriminate;
    repeat split; reflexivity.
Qed.

(** A match consumes, for each single-character item of the pattern, a
    character of the text that the item accepts. *)
Lemma matches_uses_char (ic : bool) its g prev s pos res (p : ascii -> bool) :
  Matches ic its g prev s pos res ->
  In (Chr p) its ->
  exists c, In c s /\ cmatch ic p c = true.
Proof.
  induction 1 as [ | q r g prev c s pos res Hc M IH
                   | q lo hi r g prev run s pos res F Lo Hi M IH
                   | r g prev s pos res B M IH | r g prev s pos res B M IH
                   | r g prev s pos res B M IH | r g prev s pos res M IH
                   | r g prev s pos res M IH ];
    intros I; simpl in I.
  - contradiction.
  - destruct I as [E | I].
    + injection E as ->. exists c. simpl. auto.
    + destruct (IH I) as [c' [Ic Pc]]. exists c'. simpl. auto.
  - destruct I as [E | I]; [discriminate|].
    destruct (IH I) as [c' [Ic Pc]]. exists c'. split; [|exact Pc].
    apply in_or_app. auto.
  - destruct I as [E | I]; [discriminate | auto].
  - destruct I as [E | I]; [discriminate | auto].
  - destruct I as [E | I]; [discriminate | auto].
  - destruct I as [E | I]; [discriminate | auto].
  - destruct I as [E | I]; [discriminate | auto].
Qed.

Lemma skipn_incl (s : str) (j : nat) (c : ascii) : In c (skipn j s) -> In c s.
Proof.
  intros H. rewrite <- (firstn_skipn j s). apply in_or_app. auto.
Qed.

(** A pattern with a literal character that is not whitespace has no
    match in blank text. *)
Lemma blank_no_match (re : regex) (x : ascii) (text : str) :
  In (Chr (Ascii.eqb x)) (items re) -> is_space x = false ->
  forallb is_space text = true -> ~ HasMatch re text.
Proof.
  intros I Nx B [j [res [_ M]]].
  destruct (@matches_uses_char _ _ _ _ _ _ _ _ M I) as [c [Ic Pc]].
  apply skipn_incl in Ic. rewrite forallb_forall in B. apply B in Ic.
  destruct (blank_no_case c Ic) as [U [L _]].
  unfold cmatch in Pc. destruct (ignorecase re).
  - rewrite U, L, !orb_diag in Pc. apply Ascii.eqb_eq in Pc. congruence.
  - apply Ascii.eqb_eq in Pc. congruence.
Qed.

Lemma blank_substr (sub s : str) :
  forallb is_space s = true -> Substr sub s -> forallb is_space sub = true.
Proof.
  intros B [pre [post ->]]. rewrite !forallb_app in B.
  apply andb_true_iff in B. destruct B as [_ B].
  apply andb_true_iff in B. tauto.
Qed.

Lemma blank_upper (s : str) : forallb is_space s = true -> upper s = wide s.
Proof.
  intros B. apply upper_plain. intros c Ic.
  rewrite forallb_forall in B. apply blank_no_case. auto.
Qed.

(** X11.  Blank text, the empty text that a failed extraction returns
    included, yields the placeholder row alone, with empty fields and both
    flags "No". *)
Theorem blank_text_placeholder (text : str) :
  forallb is_space text = true ->
  parse_document text =
  [ {| CaseNumber := []; PoliceDept := []; DateOfCrash := [];
       Name := lit "(no occupants parsed)"; NotAtFault := [];
       CommercialVehicleFlag := lit "No"; FatalFlag := lit "No" |} ].
Proof.
  intros B.
  assert (Ha : ~ Substr anchor_text text).
  { intros S. apply (blank_substr B) in S. discriminate. }
  rewrite (parse_document_placeholder _ (parse_occupants_absent Ha)).
  assert (Sc : search CASE_RE text = None).
  { apply search_none. apply (@blank_no_match _ "1"%char); auto.
    open_pattern CASE_RE. simpl. auto. }
  assert (Sd : search DEPT_RE text = None).
  { apply search_none. apply (@blank_no_match _ "2"%char); auto.
    open_pattern DEPT_RE. simpl. auto. }
  assert (St : search DATE_RE text = None).
  { apply search_none. apply (@blank_no_match _ "4"%char); auto.
    open_pattern DATE_RE. simpl. auto. }
  assert (C : flag_commercial text = false).
  { destruct (flag_commercial text) eqn:E; [|reflexivity].
    apply flag_commercial_true in E. destruct E as [k [I S]].
    rewrite (blank_upper _ B) in S.
    destruct (commercial_keys_upper I) as [_ [a [r [W _]]]].
    destruct k as [|c k]; [discriminate W|].
    assert (Sc' : is_space c = true).
    { pose proof B as B'. rewrite forallb_forall in B'. apply B'.
      apply (@wide_substr_incl (c :: k) text c S). simpl. auto. }
    unfold commercial_keys in I. simpl in I.
    repeat (destruct I as [E | I]; [injection E as <- _; discriminate Sc'|]).
    contradiction. }
  assert (F : py_bool (flag_fatal text) = false).
  { destruct (py_bool (flag_fatal text)) eqn:E; [|reflexivity].
    apply flag_fatal_true in E. destruct E as [S _].
    apply (blank_substr B) in S. discriminate. }
  rewrite Sc, Sd, St, C, F. reflexivity.
Qed.

End Blank.

Section Extraction.

Variable bytes : Type.
Variable pdfplumber : bytes -> plumbed.
Variable fitz : bytes -> option (list str).

Lemma join_app_prefix (sep : str) (a b : list str) :
  exists rest, join sep (a ++ b) = join sep a ++ rest.
Proof.
  induction a as [|p a [rest IH]].
  - exists (join sep b). reflexivity.
  - destruct a as [|q a].
    + destruct b as [|q b]; simpl.
      * exists []. rewrite app_nil_r. reflexivity.
      * eauto.
    + change (join sep ((p :: q :: a) ++ b)) with (p ++ sep ++ join sep ((q :: a) ++ b)).
      change (join sep (p :: q :: a)) with (p ++ sep ++ join sep (q :: a)).
      rewrite IH. exists rest. rewrite <- !app_assoc. reflexivity.
Qed.

(** X12.  The text extracted from a file is empty or starts with what
    pdfplumber had collected, joined by newlines: the pages of PyMuPDF
    come after it.  When pdfplumber raised nothing and its text is not
    blank, the result is that text, whatever PyMuPDF would return; when
    PyMuPDF raises, the result is empty whatever pdfplumber had read. *)
Theorem read_pdf_text_keeps_chunks (file_bytes : bytes) :
  (read_pdf_text pdfplumber fitz file_bytes = [] \/
   exists rest,
     read_pdf_text pdfplumber fitz file_bytes =
     join [LF] (map or_empty (pages_read (pdfplumber file_bytes))) ++ rest) /\
  (raised (pdfplumber file_bytes) = false ->
   truthy (strip (join [LF] (map or_empty (pages_read (pdfplumber file_bytes))))) = true ->
   read_pdf_text pdfplumber fitz file_bytes =
   join [LF] (map or_empty (pages_read (pdfplumber file_bytes)))) /\
  (fitz file_bytes = None ->
   (raised (pdfplumber file_bytes) = true \/
    truthy (strip (join [LF] (map or_empty (pages_read (pdfplumber file_bytes))))) = false) ->
   read_pdf_text pdfplumber fitz file_bytes = []).
Proof.
  unfold read_pdf_text, fallback_text.
  set (chunks := map or_empty (pages_read (pdfplumber file_bytes))).
  assert (Fb : match fitz file_bytes with
               | Some pages => join [LF] (chunks ++ pages)
               | None => []
               end = [] \/
               exists rest,
                 match fitz file_bytes with
                 | Some pages => join [LF] (chunks ++ pages)
                 | None => []
                 end = join [LF] chunks ++ rest).
  { destruct (fitz file_bytes) as [pages|]; [|auto].
    right. apply join_app_prefix. }
  split; [|split].
  - destruct (raised (pdfplumber file_bytes)); [exact Fb|].
    destruct (truthy (strip (join [LF] chunks))); [|exact Fb].
    right. exists []. rewrite app_nil_r. reflexivity.
  - intros -> ->. reflexivity.
  - intros -> [-> | ->]; [reflexivity|].
    destruct (raised (pdfplumber file_bytes)); reflexivity.
Qed.

Lemma collect_loop (files : list bytes) : forall acc,
  fold_left (fun all_rows f => all_rows ++ parse_document (read_pdf_text pdfplumber fitz f))
            files acc
  = acc ++ collect_rows pdfplumber fitz files.
Proof.
  unfold collect_rows.
  induction files as [|f files IH]; intros acc; simpl.
  - rewrite app_nil_r. reflexivity.
  - rewrite IH, (IH (parse_document _)), app_assoc. reflexivity.
Qed.

(** X13.  The rows of a batch are the rows of its files in upload order,
    each file parsed on its own; every file gives at least one row and at
    most 30. *)
Theorem collect_rows_batches (files more : list bytes) :
  collect_rows pdfplumber fitz (files ++ more) =
  collect_rows pdfplumber fitz files ++ collect_rows pdfplumber fitz more /\
  collect_rows pdfplumber fitz files =
  flat_map (fun f => parse_document (read_pdf_text pdfplumber fitz f)) files /\
  length files <= length (collect_rows pdfplumber fitz files) <= 30 * length files.
Proof.
  assert (Flat : forall fs, collect_rows pdfplumber fitz fs =
                            flat_map (fun f => parse_document (read_pdf_text pdfplumber fitz f)) fs).
  { induction fs as [|f fs IH]; [reflexivity|].
    unfold collect_rows. simpl. rewrite collect_loop, IH. reflexivity. }
  split; [|split].
  - rewrite !Flat. apply flat_map_app.
  - apply Flat.
  - rewrite Flat. induction files as [|f files IH]; simpl; [lia|].
    rewrite length_app.
    pose proof (row_count (read_pdf_text pdfplumber fitz f)) as R. lia.
Qed.

End Extraction.

Section Metrics.

Lemma count_yes_all (col : row -> str) (v : str) (df : list row) :
  Forall (fun r => col r = v) df ->
  count_yes col df = if str_eqb v (lit "Yes") then length df else 0.
Proof.
  unfold count_yes. induction 1 as [|r df E _ IH]; cbn [filter List.length].
  - destruct (str_eqb v (lit "Yes")); reflexivity.
  - rewrite E. destruct (str_eqb v (lit "Yes")); cbn [List.length]; rewrite IH; reflexivity.
Qed.

(** X14.  For one document, the count of commercial rows is the number
    of its rows when the document is flagged and 0 otherwise, and likewise
    for the fatal rows; the count of rows likely not at fault never
    exceeds the number of occupants, so a placeholder row is never counted. *)
Theorem document_metrics (text : str) :
  count_yes CommercialVehicleFlag (parse_document text) =
  (if flag_commercial text then length (parse_document text) else 0) /\
  count_yes FatalFlag (parse_document text) =
  (if py_bool (flag_fatal text) then length (parse_document text) else 0) /\
  count_yes NotAtFault (parse_document text) <= length (parse_occupants text).
Proof.
  split; [|split].
  - rewrite (@count_yes_all _ (yes_no (flag_commercial text))).
    + destruct (flag_commercial text); reflexivity.
    + apply Forall_forall. intros r H. apply parse_document_row in H. tauto.
  - rewrite (@count_yes_all _ (yes_no (py_bool (flag_fatal text)))).
    + destruct (py_bool (flag_fatal text)); reflexivity.
    + apply Forall_forall. intros r H. apply parse_document_row in H. tauto.
  - destruct (parse_occupants text) as [|o l] eqn:E.
    + rewrite (parse_document_placeholder _ E). reflexivity.
    + assert (N : parse_occupants text <> []) by congruence.
      unfold count_yes. rewrite (parse_document_rows _ N).
      etransitivity; [apply filter_length_le|]. rewrite length_map, E. lia.
Qed.

End Metrics.

(** ** The further theorems at concrete documents *)

Section MoreWitnesses.

Lemma find_least (s sub : str) (i : nat) :
  find s sub = Z.of_nat i ->
  OccursAt sub s i /\ forall j, OccursAt sub s j -> i <= j.
Proof.
  intros E. destruct (find_spec s sub) as [[E' _] | [k [E' [O L]]]].
  - rewrite E' in E. lia.
  - assert (k = i) by lia. subst k. auto.
Qed.

Lemma scenario_anchor_at :
  OccursAt anchor_text scenario_text 76 /\
  forall j, OccursAt anchor_text scenario_text j -> 76 <= j.
Proof. apply find_least. vm_compute. reflexivity. Qed.

Lemma charged_anchor_at :
  OccursAt (lit "136 Charge") charged_text 74 /\
  forall j, OccursAt (lit "136 Charge") charged_text j -> 74 <= j.
Proof. apply find_least. vm_compute. reflexivity. Qed.

Lemma charged_row_0 :
  In (nth 0 (parse_document charged_text) empty_row) (parse_document charged_text).
Proof. vm_compute. left. reflexivity. Qed.

Lemma charged_row_1 :
  In (nth 1 (parse_document charged_text) empty_row) (parse_document charged_text).
Proof. vm_compute. right. left. reflexivity. Qed.

Lemma scenario_row_0 :
  In (nth 0 (parse_document scenario_text) empty_row) (parse_document scenario_text).
Proof. vm_compute. left. reflexivity. Qed.

Lemma charged_hint : find_charged_driver_hint charged_text = Some (lit "JOHN SMITH").
Proof. vm_compute. reflexivity. Qed.

Lemma usdot_flagged : flag_commercial (lit "USDOT") = true.
Proof. vm_compute. reflexivity. Qed.

Lemma blank_text_blank : forallb is_space blank_text = true.
Proof. vm_compute. reflexivity. Qed.

Lemma full_row_0 :
  In (nth 0 (parse_document full_text) empty_row) (parse_document full_text).
Proof. vm_compute. left. reflexivity. Qed.

Lemma full_row_1 :
  In (nth 1 (parse_document full_text) empty_row) (parse_document full_text).
Proof. vm_compute. right. left. reflexivity. Qed.

(** The two rows of the full document: JOHN SMITH and JANE DOE, both with
    case number ABC123, department TEST CITY PD, date 01/02/23 and both
    flags "Yes". *)
Example full_rows :
  parse_document full_text =
  [ {| CaseNumber := lit "ABC123"; PoliceDept := lit "TEST CITY PD";
       DateOfCrash := lit "01/02/23"; Name := lit "JOHN SMITH";
       NotAtFault := lit "Yes";
       CommercialVehicleFlag := lit "Yes"; FatalFlag := lit "Yes" |};
    {| CaseNumber := lit "ABC123"; PoliceDept := lit "TEST CITY PD";
       DateOfCrash := lit "01/02/23"; Name := lit "JANE DOE";
       NotAtFault := lit "Yes";
       CommercialVehicleFlag := lit "Yes"; FatalFlag := lit "Yes" |} ].
Proof. vm_compute. reflexivity. Qed.

Lemma document_fields_shared_witness :
  In (nth 0 (parse_document full_text) empty_row) (parse_document full_text) /\
  In (nth 1 (parse_document full_text) empty_row) (parse_document full_text) /\
  (CaseNumber (nth 0 (parse_document full_text) empty_row) =
   CaseNumber (nth 1 (parse_document full_text) empty_row) /\
   PoliceDept (nth 0 (parse_document full_text) empty_row) =
   PoliceDept (nth 1 (parse_document full_text) empty_row) /\
   DateOfCrash (nth 0 (parse_document full_text) empty_row) =
   DateOfCrash (nth 1 (parse_document full_text) empty_row) /\
   CommercialVehicleFlag (nth 0 (parse_document full_text) empty_row) =
   CommercialVehicleFlag (nth 1 (parse_document full_text) empty_row) /\
   FatalFlag (nth 0 (parse_document full_text) empty_row) =
   FatalFlag (nth 1 (parse_document full_text) empty_row) /\
   (CommercialVehicleFlag (nth 0 (parse_document full_text) empty_row) = lit "Yes" \/
    CommercialVehicleFlag (nth 0 (parse_document full_text) empty_row) = lit "No") /\
   (FatalFlag (nth 0 (parse_document full_text) empty_row) = lit "Yes" \/
    FatalFlag (nth 0 (parse_document full_text) empty_row) = lit "No")).
Proof.
  split; [exact full_row_0|]. split; [exact full_row_1|].
  exact (@document_fields_shared full_text _ _ full_row_0 full_row_1).
Defined.

Lemma not_at_fault_empty_iff_witness :
  In (nth 0 (parse_document scenario_text) empty_row) (parse_document scenario_text) /\
  (NotAtFault (nth 0 (parse_document scenario_text) empty_row) = [] <->
   parse_occupants scenario_text = []).
Proof.
  split; [exact scenario_row_0|].
  exact (proj1 (@not_at_fault_empty_iff scenario_text _ scenario_row_0)).
Defined.

Lemma parse_occupants_block_only_witness :
  OccursAt anchor_text scenario_text 76 /\
  parse_occupants scenario_text = parse_occupants (occupants_block scenario_text 76).
Proof.
  split; [exact (proj1 scenario_anchor_at)|].
  exact (@parse_occupants_block_only scenario_text 76
           (proj1 scenario_anchor_at) (proj2 scenario_anchor_at)).
Defined.

Lemma long_anchor_at :
  OccursAt (lit "136 Charge") long_text 711 /\
  forall j, OccursAt (lit "136 Charge") long_text j -> 711 <= j.
Proof. apply find_least. vm_compute. reflexivity. Qed.

(** The window of the long document leaves out its first 111 characters,
    the line JANE DOE among them, and its last 523. *)
Example long_window :
  length long_text = 2734 /\
  length (window long_text 711) = 2100 /\
  window long_text 711 = skipn 111 (firstn 2211 long_text) /\
  find_charged_driver_hint (firstn 20 long_text) = None /\
  findall CAPS_RE (firstn 20 long_text) = [lit "JANE DOE"].
Proof. repeat split; vm_compute; reflexivity. Qed.

Lemma hint_window_only_witness :
  OccursAt (lit "136 Charge") long_text 711 /\
  find_charged_driver_hint long_text =
  find_charged_driver_hint (window long_text 711).
Proof.
  split; [exact (proj1 long_anchor_at)|].
  exact (@hint_window_only long_text 711
           (proj1 long_anchor_at) (proj2 long_anchor_at)).
Defined.

Lemma hint_alphabet_witness :
  find_charged_driver_hint charged_text = Some (lit "JOHN SMITH") /\
  (forallb cls_caps (lit "JOHN SMITH") = true /\
   upper (lit "JOHN SMITH") = wide (lit "JOHN SMITH") /\
   length (lit "JOHN SMITH") <= 61).
Proof.
  split; [exact charged_hint|].
  exact (@hint_alphabet charged_text _ charged_hint).
Defined.

Lemma flag_commercial_embedded_witness :
  flag_commercial (lit "USDOT") = true /\
  flag_commercial (lit "no. " ++ lit "USDOT" ++ lit " 12345") = true.
Proof.
  split; [exact usdot_flagged|].
  exact (@flag_commercial_embedded (lit "no. ") (lit "USDOT") (lit " 12345") usdot_flagged).
Defined.



Lemma occupant_provenance_witness :
  In {| name := lit "JOHN SMITH" |} (parse_occupants scenario_text) /\
  exists l,
    In l (occupant_lines scenario_text (find scenario_text anchor_text)) /\
    l <> [] /\
    ~ Substr (lit "Names & Addresses") l /\
    ~ Substr (lit "If Deceased") l /\
    forallb cls_numeric l = false /\
    TwoWords l /\
    lit "JOHN SMITH" = name_only (clean_line l).
Proof.
  split; [exact scenario_john|].
  exact (@occupant_provenance scenario_text _ scenario_john).
Defined.

Lemma blank_text_placeholder_witness :
  forallb is_space blank_text = true /\
  parse_document blank_text =
  [ {| CaseNumber := []; PoliceDept := []; DateOfCrash := [];
       Name := lit "(no occupants parsed)"; NotAtFault := [];
       CommercialVehicleFlag := lit "No"; FatalFlag := lit "No" |} ].
Proof.
  split; [exact blank_text_blank|].
  exact (@blank_text_placeholder blank_text blank_text_blank).
Defined.

(** The extraction of a file of two pages whose text pdfplumber reads. *)
Example read_sample :
  read_pdf_text sample_plumber sample_fitz [lit "page one"; lit "page two"] =
  lit "page one" ++ [LF] ++ lit "page two".
Proof. vm_compute. reflexivity. Qed.

End MoreWitnesses.

(** ** Text with characters above 127 *)

Section Latin1.

(** A no-break space is whitespace: between the label and the count, in
    a name, and after a field number. *)
Example nbsp_fatal : py_bool (flag_fatal nbsp_fatal_text) = true.
Proof. vm_compute. reflexivity. Qed.

Example nbsp_occupant :
  map name (parse_occupants nbsp_occupant_text) = [ lit "JOHN" ++ [NBSP] ++ lit "SMITH" ].
Proof. vm_compute. reflexivity. Qed.

Example nbsp_case :
  map CaseNumber (parse_document nbsp_case_text) = [ lit "X1" ].
Proof. vm_compute. reflexivity. Qed.

(** An accented letter is a word character: no number starts right after
    it, and no field number 8. *)
Example accent_fatal : py_bool (flag_fatal accent_fatal_text) = false.
Proof. vm_compute. reflexivity. Qed.

Example accent_occupant :
  map name (parse_occupants accent_occupant_text) =
  [ lit "JOHN SMITH " ++ [E_ACUTE] ++ lit "12" ].
Proof. vm_compute. reflexivity. Qed.

(** The upper case of sharp s is SS: the hint ANNA GROSS names the
    occupant written with sharp s (and its own line, read as an occupant). *)
Example sharp_s_upper : upper (lit "gro" ++ [SHARP_S]) = wide (lit "GROSS").
Proof. vm_compute. reflexivity. Qed.

Example sharp_s_rows :
  find_charged_driver_hint sharp_s_text = Some (lit "ANNA GROSS") /\
  map (fun r => (Name r, NotAtFault r)) (parse_document sharp_s_text) =
  [ (lit "ANNA GRO" ++ [SHARP_S], lit "No"); (lit "ANNA GROSS", lit "No") ].
Proof. split; vm_compute; reflexivity. Qed.

(** A page of one no-break space is blank: the text of PyMuPDF is taken,
    after the chunk already collected. *)
Example nbsp_page_falls_back :
  read_pdf_text (fun _ : unit => {| pages_read := [Some [NBSP]]; raised := false |})
                (fun _ => Some [lit "page one"]) tt =
  [NBSP] ++ [LF] ++ lit "page one".
Proof. vm_compute. reflexivity. Qed.

End Latin1.
